(** * filify: a bidirectional project converter

    Shallow embedding of [src/filify.py] (class [ProjectConverter]) and the
    properties of its four components: the Splitter [_parse_spec_file], the
    Composer [_generate_spec_content], the Scanner [_scan_directory] and the
    Materializer [_create_directory_structure].

    Python strings are sequences of Unicode code points: a character is a
    code point in [N], a string a list of them. *)

From Stdlib Require Import String Ascii.
From stdpp Require Import base list numbers sorting lexico countable gmap.

Local Open Scope N_scope.

(** ** Strings *)

Abbreviation char := N (only parsing).
Abbreviation str := (list N) (only parsing).

(** An ASCII literal as a Python string. *)
Definition py (s : string) : str :=
  N_of_ascii <$> list_ascii_of_string s.

Definition nl : char := 10.
Definition sp : char := 32.
Definition hash : char := 35.
Definition eqc : char := 61.
Definition dot : char := 46.

(** [str.isspace] on one code point (CPython's [_PyUnicode_IsWhitespace]). *)
Definition isspace (c : char) : bool :=
  ((9 <=? c) && (c <=? 13)) || ((28 <=? c) && (c <=? 32))
  || (c =? 133) || (c =? 160) || (c =? 5760)
  || ((8192 <=? c) && (c <=? 8202))
  || (c =? 8232) || (c =? 8233) || (c =? 8239) || (c =? 8287) || (c =? 12288).

Fixpoint lstrip (s : str) : str :=
  match s with
  | c :: s' => if isspace c then lstrip s' else s
  | [] => []
  end.

Definition rstrip (s : str) : str := reverse (lstrip (reverse s)).

(** [s.strip()] *)
Definition strip (s : str) : str := rstrip (lstrip s).

(** [s.startswith(p)] *)
Fixpoint startswith (s p : str) : bool :=
  match p, s with
  | [], _ => true
  | _ :: _, [] => false
  | c :: p', x :: s' => (x =? c) && startswith s' p'
  end.

(** [s.endswith(p)] *)
Definition endswith (s p : str) : bool := startswith (reverse s) (reverse p).

(** [s[a:-b]] for literal [a], [b] >= 0 with [b] > 0: the stop index
    [len(s) - b] is clamped at 0. *)
Definition slice_from_to_end (a b : nat) (s : str) : str :=
  drop a (take (length s - b) s).

(** [p in s] on strings: [p] occurs as a substring of [s]. *)
Fixpoint contains (p s : str) : bool :=
  startswith s p || match s with [] => false | _ :: s' => contains p s' end.

(** [sep.join(parts)] *)
Fixpoint join (sep : str) (parts : list str) : str :=
  match parts with
  | [] => []
  | [p] => p
  | p :: ps => p ++ sep ++ join sep ps
  end.

(** [a < b] on strings: lexicographic on code points. *)
Fixpoint str_lt (a b : str) : bool :=
  match a, b with
  | _, [] => false
  | [], _ :: _ => true
  | x :: a', y :: b' =>
      if x <? y then true else if y <? x then false else str_lt a' b'
  end.

(** ** The separator pattern

    [re.compile(r'^# ={10,} (.+?) ={10,}$', re.MULTILINE)], as a backtracking
    matcher in continuation-passing style, one combinator per element of
    the pattern.  A continuation receives the text still to be matched. *)

Section Regex.
Context {A : Type}.

(** A literal character. *)
Definition lit (c : char) (s : str) (k : str → option A) : option A :=
  match s with
  | x :: s' => if x =? c then k s' else None
  | [] => None
  end.

(** [c{min,}], greedy: take one more [c] when there is one, and fall back
    to stopping here (allowed once [min] is reached) when the rest of the
    pattern fails. *)
Fixpoint greedy (c : char) (min : nat) (s : str) (k : str → option A)
    : option A :=
  let stop := match min with O => k s | S _ => None end in
  match s with
  | x :: s' =>
      if x =? c then
        match greedy c (pred min) s' k with
        | Some r => Some r
        | None => stop
        end
      else stop
  | [] => stop
  end.

(** [(.+?)], lazy, captured: [.] is any character but a newline; after
    each character taken the rest of the pattern is tried first, and one
    more character is taken only when it fails.  [g] is the text captured
    so far. *)
Fixpoint lazy_dots (g : str) (s : str) (k : str → str → option A)
    : option A :=
  match s with
  | x :: s' =>
      if x =? nl then None
      else
        match k (g ++ [x]) s' with
        | Some r => Some r
        | None => lazy_dots (g ++ [x]) s' k
        end
  | [] => None
  end.
End Regex.

(** [$] under [re.MULTILINE]: at the end of the text or before a newline. *)
Definition at_eol (s : str) : bool :=
  match s with
  | [] => true
  | c :: _ => c =? nl
  end.

(** One match attempt of the pattern at a position of the document.  [bol]
    says whether [^] holds there (start of the text, or just after a
    newline) and [s] is the text from that position on.  The result is the
    captured group and the text after the match. *)
Definition match_sep (bol : bool) (s : str) : option (str * str) :=
  if bol then
    lit hash s (λ s,
    lit sp s (λ s,
    greedy eqc 10 s (λ s,
    lit sp s (λ s,
    lazy_dots [] s (λ g s,
    lit sp s (λ s,
    greedy eqc 10 s (λ s,
    if at_eol s then Some (g, s) else None)))))))
  else None.

(** [pattern.split(content)] for a pattern with one group: the text before
    each match and the group of the match, in turn, then the text after the
    last match.  The scan tries every position from left to right; [cur] is
    the text passed since the previous match.  A match is never empty, so
    one unit of [fuel] per character and one more suffice. *)
Fixpoint split_go (fuel : nat) (bol : bool) (cur s : str) : list str :=
  match fuel with
  | O => [cur ++ s]
  | S fuel' =>
      match match_sep bol s with
      | Some (g, rest) => cur :: g :: split_go fuel' false [] rest
      | None =>
          match s with
          | [] => [cur]
          | x :: s' => split_go fuel' (x =? nl) (cur ++ [x]) s'
          end
      end
  end.

Definition re_split (content : str) : list str :=
  split_go (S (length content)) true [] content.

(** ** Dictionaries

    A Python [dict] keeps its keys in insertion order: an association list
    with unique keys.  [d[k] = v] replaces the value of a key already
    present, in place, and appends a new key at the end. *)

Abbreviation pydict := (list (list N * list N)) (only parsing).

Fixpoint dict_set (k v : str) (d : pydict) : pydict :=
  match d with
  | [] => [(k, v)]
  | (k', v') :: d' =>
      if decide (k' = k) then (k, v) :: d' else (k', v') :: dict_set k v d'
  end.

Fixpoint dict_get (k : str) (d : pydict) : option str :=
  match d with
  | [] => None
  | (k', v') :: d' => if decide (k' = k) then Some v' else dict_get k d'
  end.

Definition dict_keys (d : pydict) : list str := d.*1.

(** [d1 == d2] on dictionaries: the same keys with the same values, in any
    order. *)
Definition dict_eq (d1 d2 : pydict) : Prop :=
  ∀ k, dict_get k d1 = dict_get k d2.

(** ** Splitter *)

(** The delimiters ['''] of double quotes (code point 34) and of single
    quotes (code point 39). *)
Definition triple_dq : str := [34; 34; 34].
Definition triple_sq : str := [39; 39; 39].

(** Lines 64 to 70: the text of a section, trimmed, and un-wrapped when it
    is fenced by a pair of triple quotes. *)
Definition clean_content (section : str) : str :=
  let file_content := strip section in
  if startswith file_content triple_dq && endswith file_content triple_dq
  then strip (slice_from_to_end 3 3 file_content)
  else if startswith file_content triple_sq && endswith file_content triple_sq
  then strip (slice_from_to_end 3 3 file_content)
  else file_content.

(** [range(start, stop, step)] for a positive [step]. *)
Fixpoint range_aux (n start stop step : nat) : list nat :=
  match n with
  | O => []
  | S n' =>
      if (start <? stop)%nat
      then start :: range_aux n' (start + step)%nat stop step
      else []
  end.

Definition py_range (start stop step : nat) : list nat :=
  range_aux stop start stop step.

(** The body of the loop, at index [i]. *)
Definition parse_step (sections : list str) (files : pydict) (i : nat)
    : pydict :=
  if (i + 1 <? length sections)%nat then
    let filepath := strip (sections !!! i) in
    let file_content := clean_content (sections !!! (i + 1)%nat) in
    dict_set filepath file_content files
  else files.

(** The returned dictionary; the progress lines printed on the way are not
    part of it. *)
Definition _parse_spec_file (content : str) : pydict :=
  let sections := re_split content in
  foldl (parse_step sections) [] (py_range 1 (length sections) 2).

(** ** Composer *)

(** [a < b] on [(path, content)] tuples: the first components decide unless
    they are equal. *)
Definition tuple_lt (p q : list N * list N) : bool :=
  if decide (p.1 = q.1) then str_lt p.2 q.2 else str_lt p.1 q.1.

Definition tuple_le (p q : list N * list N) : Prop := tuple_lt q p = false.

Global Instance tuple_le_dec p q : Decision (tuple_le p q).
Proof. unfold tuple_le. apply _. Defined.

(** [sorted(items)]: a sort by [<] on tuples. *)
Definition sorted (items : pydict) : pydict := merge_sort tuple_le items.

(** [f"# {'=' * 20} {filepath} {'=' * 20}"] *)
Definition separator (filepath : str) : str :=
  [hash; sp] ++ replicate 20 eqc ++ [sp] ++ filepath ++ [sp]
    ++ replicate 20 eqc.

Definition _generate_spec_content (files : pydict) : str :=
  let sorted_files := sorted files in
  let content_parts :=
    foldl (λ parts '(filepath, file_content),
             parts ++ [separator filepath; file_content; []])
          [] sorted_files in
  join [nl] content_parts.

(** ** Paths ([pathlib.PurePosixPath])

    A path is its root ([[]], [/] or [//]) and its components. *)

Definition slash : char := 47.

Record Path := mkPath { root : list N; parts : list (list N) }.

Global Instance Path_eq_dec : EqDecision Path.
Proof. solve_decision. Defined.

Global Instance Path_countable : Countable Path.
Proof.
  apply (inj_countable' (λ p, (root p, parts p)) (λ rp, mkPath rp.1 rp.2)).
  by intros [].
Defined.

(** [s.split(sep)] for a one-character separator. *)
Fixpoint split_on (sep : char) (s : str) : list str :=
  match s with
  | [] => [[]]
  | c :: s' =>
      if c =? sep then [] :: split_on sep s'
      else match split_on sep s' with
           | l :: ls => (c :: l) :: ls
           | [] => [[c]]
           end
  end.

(** [Path(s)]: exactly two leading slashes are a root of their own, empty
    components and [.] components are dropped. *)
Definition parse_path (s : str) : Path :=
  let '(rt, rel) :=
    match s with
    | 47 :: 47 :: 47 :: _ => ([slash], drop 1 s)
    | 47 :: 47 :: rel => ([slash; slash], rel)
    | 47 :: rel => ([slash], rel)
    | _ => ([], s)
    end in
  mkPath rt
    (filter (λ x, x ≠ [] ∧ x ≠ [dot]) (split_on slash rel)).

(** [str(p)] *)
Definition path_str (p : Path) : str :=
  match root p, parts p with
  | [], [] => [dot]
  | rt, ps => rt ++ join [slash] ps
  end.

(** [p.name] *)
Definition path_name (p : Path) : str := default [] (last (parts p)).

(** [p.parent] *)
Definition path_parent (p : Path) : Path :=
  mkPath (root p) (removelast (parts p)).

(** [p / s] for a string [s]: an absolute [s] replaces [p]. *)
Definition path_join (p : Path) (s : str) : Path :=
  let q := parse_path s in
  match root q with
  | [] => mkPath (root p) (parts p ++ parts q)
  | _ => q
  end.

(** [p / name] for a directory entry [name], one component. *)
Definition path_child (p : Path) (name : str) : Path :=
  mkPath (root p) (parts p ++ [name]).

(** [p.relative_to(other)]; [None] stands for [ValueError]. *)
Definition relative_to (p other : Path) : option Path :=
  if decide (root p = root other ∧ parts other `prefix_of` parts p)
  then Some (mkPath [] (drop (length (parts other)) (parts p)))
  else None.

(** ** Scanner *)

(** What [read_text(encoding='utf-8')] does on a file: it returns the text,
    or raises [UnicodeDecodeError], or raises [PermissionError]. *)
Inductive read_result :=
  | Text (s : list N)
  | DecodeError
  | PermissionDenied.

(** A directory tree: files and directories with their named entries. *)
#[local] Set Warnings "-register-all".
Inductive node :=
  | File (r : read_result)
  | Dir (entries : list (list N * node)).

(** [p.rglob('*')] where [n] is what is found at [p]: every entry below a
    directory, files and directories alike, hidden or not; the entries of
    the directory first, then what is below each of them. *)
Fixpoint rglob (p : Path) (n : node) : list (Path * node) :=
  match n with
  | File _ => []
  | Dir entries =>
      ((λ e, (path_child p e.1, e.2)) <$> entries)
      ++ (entries ≫= λ e, rglob (path_child p e.1) e.2)
  end.

(** [file_path.is_file()] *)
Definition is_file (n : node) : bool :=
  match n with File _ => true | Dir _ => false end.

Definition skip_patterns : list (list N) :=
  [py "__pycache__"; py ".git"; py ".env"; py "venv"; py "node_modules";
   py ".pytest_cache"; py "*.pyc"; py "*.log"; py ".DS_Store"].

Definition env_example : list N := py ".env.example".

(** [should_skip]: [any] over the patterns of
    [pattern in str(path) or (path.name.startswith('.') and
    path.name != '.env.example')]. *)
Definition should_skip (path : Path) : bool :=
  existsb (λ pattern,
             contains pattern (path_str path)
             || (startswith (path_name path) [dot]
                 && negb (bool_decide (path_name path = env_example))))
          skip_patterns.

(** The lines the Scanner prints. *)
Inductive report :=
  | Added (relative_path : list N)
  | SkippedBinary (relative_path : list N).

(** How a call ends: it returns a value or raises an exception that
    nothing in the function catches. *)
Inductive outcome (E A : Type) :=
  | Returned (a : A)
  | Raised (e : E).
Arguments Returned {E A} a.
Arguments Raised {E A} e.

(** Sequencing of calls that may raise. *)
Global Instance outcome_bind {E} : MBind (outcome E) := λ A B f x,
  match x with
  | Returned a => f a
  | Raised e => Raised e
  end.

Inductive scan_error := PermissionError.

(** One round of the loop over [rglob], on the dictionary built and the
    lines printed so far. *)
Definition scan_step (project_path : Path) (st : list (list N * list N) * list report)
    (entry : Path * node) : outcome scan_error (list (list N * list N) * list report) :=
  let '(files, out) := st in
  let '(file_path, n) := entry in
  if is_file n && negb (should_skip file_path) then
    match relative_to file_path project_path with
    | Some relative_path =>
        match n with
        | File (Text content) =>
            Returned (dict_set (path_str relative_path) content files,
                      out ++ [Added (path_str relative_path)])
        | File DecodeError =>
            Returned (files, out ++ [SkippedBinary (path_str relative_path)])
        | File PermissionDenied => Raised PermissionError
        | Dir _ => Returned (files, out)
        end
    | None => Returned (files, out)
    end
  else Returned (files, out).

Fixpoint scan_loop (project_path : Path) (st : list (list N * list N) * list report)
    (entries : list (Path * node))
    : outcome scan_error (list (list N * list N) * list report) :=
  match entries with
  | [] => Returned st
  | e :: es =>
      match scan_step project_path st e with
      | Returned st' => scan_loop project_path st' es
      | Raised x => Raised x
      end
  end.

(** [_scan_directory(project_dir)] where [tree] is what the file system
    holds at [project_dir]: the dictionary returned with the lines printed,
    or the exception raised. *)
Definition _scan_directory (project_dir : list N) (tree : node)
    : outcome scan_error (list (list N * list N) * list report) :=
  let project_path := parse_path project_dir in
  scan_loop project_path ([], []) (rglob project_path tree).

(** ** Materializer

    The file system the Materializer writes to: what is found at each path,
    and the umask of the process.  A path is taken as [pathlib] has it (no
    symbolic links, no [..] resolved); a path without components (the
    current directory or a root) is a directory that always exists.  Access
    checks and the space left on the device are not part of the model: a
    call fails only for what is, or is not, at its path. *)

Inductive fs_node :=
  | FsDir (mode : N)
  | FsFile (content : list N) (mode : N).

Record fs := mkFs { nodes : gmap Path fs_node; umask : N }.

Inductive os_error :=
  | FileNotFoundError
  | FileExistsError
  | NotADirectoryError
  | IsADirectoryError.

Definition fs_lookup (s : fs) (p : Path) : option fs_node :=
  match parts p with
  | [] => Some (FsDir 493)
  | _ => nodes s !! p
  end.

Definition fs_is_dir (s : fs) (p : Path) : bool :=
  match fs_lookup s p with Some (FsDir _) => true | _ => false end.

(** The permission bits of what is at [p]. *)
Definition mode_of (s : fs) (p : Path) : option N :=
  match fs_lookup s p with
  | Some (FsDir m) => Some m
  | Some (FsFile _ m) => Some m
  | None => None
  end.

Definition fs_put (s : fs) (p : Path) (n : fs_node) : fs :=
  mkFs (<[p := n]> (nodes s)) (umask s).

(** [os.mkdir(p, 0o777)] *)
Definition os_mkdir (p : Path) (s : fs) : outcome os_error fs :=
  match fs_lookup s p with
  | Some _ => Raised FileExistsError
  | None =>
      match fs_lookup s (path_parent p) with
      | Some (FsDir _) => Returned (fs_put s p (FsDir (N.ldiff 511 (umask s))))
      | Some (FsFile _ _) => Raised NotADirectoryError
      | None => Raised FileNotFoundError
      end
  end.

(** [Path.mkdir(parents=True, exist_ok=True)] on the path with root [rt]
    and the components [reverse rparts]: [os.mkdir] first, the parents when
    it finds none, and an existing directory is no error. *)
Fixpoint mkdir_parents (rt : list N) (rparts : list (list N)) (s : fs)
    : outcome os_error fs :=
  let p := mkPath rt (reverse rparts) in
  match os_mkdir p s with
  | Returned s' => Returned s'
  | Raised FileNotFoundError =>
      match rparts with
      | [] => Raised FileNotFoundError
      | _ :: rparent =>
          match mkdir_parents rt rparent s with
          | Returned s1 =>
              match os_mkdir p s1 with
              | Returned s2 => Returned s2
              | Raised e => if fs_is_dir s1 p then Returned s1 else Raised e
              end
          | Raised e => Raised e
          end
      end
  | Raised e => if fs_is_dir s p then Returned s else Raised e
  end.

Definition path_mkdir (p : Path) (s : fs) : outcome os_error fs :=
  mkdir_parents (root p) (reverse (parts p)) s.

(** [p.write_text(content, encoding='utf-8')]: an existing file keeps its
    permission bits, a new one gets [0o666] less the umask. *)
Definition write_text (p : Path) (content : list N) (s : fs)
    : outcome os_error fs :=
  match fs_lookup s p with
  | Some (FsDir _) => Raised IsADirectoryError
  | Some (FsFile _ m) => Returned (fs_put s p (FsFile content m))
  | None =>
      match fs_lookup s (path_parent p) with
      | Some (FsDir _) =>
          Returned (fs_put s p (FsFile content (N.ldiff 438 (umask s))))
      | Some (FsFile _ _) => Raised NotADirectoryError
      | None => Raised FileNotFoundError
      end
  end.

(** [os.chmod(p, mode)] *)
Definition os_chmod (p : Path) (mode : N) (s : fs) : outcome os_error fs :=
  match parts p, nodes s !! p with
  | _ :: _, Some (FsDir _) => Returned (fs_put s p (FsDir mode))
  | _ :: _, Some (FsFile c _) => Returned (fs_put s p (FsFile c mode))
  | _, _ => Raised FileNotFoundError
  end.

(** [0o755] *)
Definition rwxr_xr_x : N := 493.

(** The body of the loop, for one entry of the dictionary. *)
Definition materialize_entry (base_path : Path) (entry : list N * list N)
    (s : fs) : outcome os_error fs :=
  let '(filepath, content) := entry in
  let file_path := path_join base_path filepath in
  s1 ← path_mkdir (path_parent file_path) s ;
  s2 ← write_text file_path content s1 ;
  if endswith filepath (py ".sh") then os_chmod file_path rwxr_xr_x s2
  else Returned s2.

Fixpoint materialize_loop (base_path : Path) (items : list (list N * list N))
    (s : fs) : outcome os_error fs :=
  match items with
  | [] => Returned s
  | e :: es =>
      s' ← materialize_entry base_path e s ;
      materialize_loop base_path es s'
  end.

(** [_create_directory_structure(files, output_dir)] from the file system
    [s]: the file system it leaves, or the error raised. *)
Definition _create_directory_structure (files : list (list N * list N))
    (output_dir : list N) (s : fs) : outcome os_error fs :=
  materialize_loop (parse_path output_dir) files s.

(** ** Notions used in the statements *)

(** [split_go] with the fuel [re_split] gives it. *)
Definition splits (bol : bool) (cur s : str) : list str :=
  split_go (S (length s)) bol cur s.

(** The text of a separator line with [n] and [m] equals signs. *)
Definition sep_line (n m : nat) (g : str) : str :=
  [hash; sp] ++ replicate n eqc ++ [sp] ++ g ++ [sp] ++ replicate m eqc.

(** The lines of [c], those after the first one only when [bol] is off. *)
Definition lines_from (bol : bool) (c : str) : list str :=
  if bol then split_on nl c else tail (split_on nl c).

(** No line of [c] matches the separator pattern. *)
Definition sep_free (c : str) : Prop :=
  Forall (λ l, match_sep true l = None) (split_on nl c).

(** A text of white space only. *)
Definition all_space (w : list N) : Prop := Forall (λ c, isspace c = true) w.

(** The sections after the first one, two by two. *)
Definition flat_pairs (ps : list (list N * list N)) : list (list N) :=
  ps ≫= λ p, [p.1; p.2].

(** What one round of the loop stores for a path and the text after it. *)
Definition store (d : list (list N * list N)) (p : list N * list N)
    : list (list N * list N) :=
  dict_set (strip p.1) (clean_content p.2) d.

(** The document the Composer writes, from the entries in order. *)
Definition doc_of (items : list (list N * list N)) : list N :=
  join [nl] (items ≫= λ e, [separator e.1; e.2; []]).

(** A path the separator line gives back: not empty, on one line, trimmed. *)
Definition valid_path (p : list N) : Prop :=
  p ≠ [] ∧ (nl ∉ p) ∧ strip p = p.

(** The text is fenced by a pair of triple quotes (the test of lines 67
    and 69). *)
Definition wrapped (c : list N) : bool :=
  (startswith c triple_dq && endswith c triple_dq)
  || (startswith c triple_sq && endswith c triple_sq).

(** A text the Splitter gives back: trimmed, not fenced by triple quotes,
    and without a line that matches the separator pattern. *)
Definition valid_content (c : list N) : Prop :=
  strip c = c ∧ wrapped c = false ∧ sep_free c.

(** An entry the round trip gives back. *)
Definition valid_entry (e : list N * list N) : Prop :=
  valid_path e.1 ∧ valid_content e.2.

(** The text between the separator of an entry and the next one: the
    content, the newline before it, and the one or two after it. *)
Fixpoint padded (items : list (list N * list N)) : list (list N * list N) :=
  match items with
  | [] => []
  | e :: items' =>
      (e.1, [nl] ++ e.2 ++ [nl] ++ match items' with [] => [] | _ => [nl] end)
      :: padded items'
  end.

(** The names of the entries of a tree hold no slash. *)
Inductive names_ok : node → Prop :=
  | names_ok_file r : names_ok (File r)
  | names_ok_dir entries :
      Forall (λ e, (slash ∉ e.1) ∧ names_ok e.2) entries →
      names_ok (Dir entries).

(** What a call leaves of the file system [s]: nodes are kept as they
    are, but for new directories at [rt] and at most [len] components. *)
Definition only_new_dirs (rt : list N) (len : nat) (s s' : fs) : Prop :=
  umask s' = umask s ∧
  ∀ q, fs_lookup s' q = fs_lookup s q ∨
       (fs_lookup s q = None ∧ (∃ m, fs_lookup s' q = Some (FsDir m)) ∧
        root q = rt ∧ (length (parts q) ≤ len)%nat).

Global Instance sep_free_dec c : Decision (sep_free c).
Proof. unfold sep_free. apply _. Defined.

Global Instance valid_entry_dec e : Decision (valid_entry e).
Proof. unfold valid_entry, valid_path, valid_content, sep_free. apply _. Defined.

(** An entry the Composer writes so that the Splitter finds its path
    again: a path not empty, on one line and trimmed, and a content
    without a line that matches the separator pattern. *)
Definition plain_entry (e : list N * list N) : Prop :=
  valid_path e.1 ∧ sep_free e.2.

Global Instance plain_entry_dec e : Decision (plain_entry e).
Proof. unfold plain_entry, valid_path. apply _. Defined.

(** The entries of the mapping of a scan, in the order in which the loop
    meets them: the relative path and the text of every file that is not
    skipped and that decodes. *)
Definition selected (project_path : Path) (entries : list (Path * node))
    : list (list N * list N) :=
  omap (λ e : Path * node,
          if is_file e.2 && negb (should_skip e.1) then
            match relative_to e.1 project_path, e.2 with
            | Some relative_path, File (Text content) =>
                Some (path_str relative_path, content)
            | _, _ => None
            end
          else None) entries.

(** ** The two commands

    [defilify] and [filify] open the spec file by its name, a string.  The
    file system is the one of the Materializer; its files hold text, so
    that reading a file never fails to decode. *)

Definition cr : N := 13.

(** Reading in text mode: a carriage return, with the newline that may
    follow it, comes out as one newline. *)
Fixpoint universal_newlines (s : list N) : list N :=
  match s with
  | [] => []
  | c :: s' =>
      if c =? cr then
        nl :: match s' with
              | [] => []
              | d :: s'' =>
                  if d =? nl then universal_newlines s''
                  else universal_newlines s'
              end
      else c :: universal_newlines s'
  end.

(** [open(name, 'r', encoding='utf-8').read()]: there is nothing at the
    empty name, and no file at a name that ends with a slash. *)
Definition read_file (name : list N) (s : fs) : outcome os_error (list N) :=
  if decide (name = []) then Raised FileNotFoundError
  else
    match fs_lookup s (parse_path name) with
    | Some (FsFile content _) =>
        if endswith name [slash] then Raised NotADirectoryError
        else Returned (universal_newlines content)
    | Some (FsDir _) => Raised IsADirectoryError
    | None =>
        match fs_lookup s (path_parent (parse_path name)) with
        | Some (FsFile _ _) => Raised NotADirectoryError
        | _ => Raised FileNotFoundError
        end
    end.

(** [open(name, 'w', encoding='utf-8')] and [f.write(content)]. *)
Definition write_file (name content : list N) (s : fs) : outcome os_error fs :=
  if decide (name = []) then Raised FileNotFoundError
  else if endswith name [slash] then
    match fs_lookup s (parse_path name) with
    | Some (FsFile _ _) => Raised NotADirectoryError
    | _ => Raised IsADirectoryError
    end
  else write_text (parse_path name) content s.

(** [defilify(spec_file, output_dir)]: the file system it leaves, or the
    error raised; what it prints is left out. *)
Definition defilify (spec_file output_dir : list N) (s : fs)
    : outcome os_error fs :=
  content ← read_file spec_file s;
  let files := _parse_spec_file content in
  _create_directory_structure files output_dir s.

Inductive filify_error :=
  | ScanError (e : scan_error)
  | WriteError (e : os_error).

(** [filify(project_dir, output_file)], where [tree] is what the scan
    finds at [project_dir] and [s] is the file system the document is
    written to. *)
Definition filify (project_dir output_file : list N) (tree : node) (s : fs)
    : outcome filify_error fs :=
  match _scan_directory project_dir tree with
  | Raised e => Raised (ScanError e)
  | Returned (files, _) =>
      let content := _generate_spec_content files in
      match write_file output_file content s with
      | Returned s' => Returned s'
      | Raised e => Raised (WriteError e)
      end
  end.

(** ** Paths that name one file

    The file system takes a path as it is written; the operating system
    resolves a [..] component first, and a path that begins with a slash is
    not below the directory it is joined to.  The statements about single
    files are made for paths where the two agree, in a file system without
    links: paths as [pathlib] writes them, without a [..] component, and
    joined from keys that are relative. *)

Definition dotdot : list N := py "..".

(** A path as [pathlib] writes it (no empty component, no [.] component,
    no slash inside a component) and without a [..] component. *)
Definition plain_path (p : Path) : Prop :=
  Forall (λ x, x ≠ [] ∧ x ≠ [dot] ∧ x ≠ dotdot ∧ (slash ∉ x)) (parts p).

(** A key of the mapping as the data model has it: a relative path,
    without a [..] component. *)
Definition plain_key (k : list N) : Prop :=
  root (parse_path k) = [] ∧ plain_path (parse_path k).

Global Instance plain_path_dec p : Decision (plain_path p).
Proof. unfold plain_path. apply _. Defined.

Global Instance plain_key_dec k : Decision (plain_key k).
Proof. unfold plain_key. apply _. Defined.

(** ** Inputs of the examples *)

Definition doc_c1 : list (list N * list N) :=
  [(py "a.txt", py "hello" ++ [nl])].

Definition files_c1 : list (list N * list N) :=
  [(py "src/b.txt", py "x" ++ [nl] ++ py "# y");
   (py "a b.txt", py "hello"); (py "empty", [])].

Definition files_c5a : list (list N * list N) :=
  [(py "b", py "2"); (py "a/z", py "1"); (py "a", py "0")].

Definition files_c5b : list (list N * list N) :=
  [(py "a", py "0"); (py "b", py "2"); (py "a/z", py "1")].

Definition doc_c6 : list N :=
  separator (py "notes.txt") ++ [nl]
  ++ triple_dq ++ py "hello" ++ [nl] ++ py "world" ++ triple_dq.

Definition pre_c7 : list N :=
  py "intro" ++ [nl] ++ separator (py "a.txt") ++ [nl] ++ py "text" ++ [nl].

Definition doc_c8 : list N :=
  separator (py "a.txt") ++ [nl] ++ py "first" ++ [nl]
  ++ separator (py "b.txt") ++ [nl] ++ py "other" ++ [nl]
  ++ py "# =========== a.txt  ==========" ++ [nl] ++ py "second" ++ [nl].

Definition doc_c10 : list N :=
  py "# ==========   spaced path   ==========" ++ [nl; nl; sp]
  ++ py "body  " ++ [nl; nl].

Definition tree_c2 : node :=
  Dir [ (py ".git", Dir [(py "config", File (Text (py "[core]")))]);
        (py "node_modules", Dir [(py "x.js", File (Text (py "x()")))]);
        (py "a.log", File (Text (py "started")));
        (py ".env.example", File (Text (py "KEY="))) ].

Definition tree_c3 : node :=
  Dir [ (py ".config", Dir [(py "settings.txt", File (Text (py "k=v")))]) ].

Definition tree_c3w : node :=
  Dir [ (py "src", Dir [(py ".hidden", File (Text (py "h")));
                        (py "main.py", File (Text (py "m")))]) ].

Definition tree_c4 : node :=
  Dir [ (py "a.txt", File PermissionDenied);
        (py "b.txt", File (Text (py "b"))) ].

Definition tree_c4w : node :=
  Dir [ (py "logo.png", File DecodeError);
        (py ".cache", File PermissionDenied);
        (py "b.txt", File (Text (py "b"))) ].

Definition fs_c9 : fs := mkFs ∅ 18.

Definition files_c9 : list (list N * list N) :=
  [(py "bin/run.sh", py "echo hi"); (py "src/main.py", py "print(1)")].


Definition doc_x1 : list N :=
  py "plain notes" ++ [nl] ++ py "# ========= a.txt =========" ++ [nl]
  ++ py " # ==================== b.txt ====================".

Definition files_x7 : list (list N * list N) :=
  [(py "run.sh", [nl] ++ py "echo hi" ++ [nl; nl]);
   (py "doc/quote.txt", triple_sq ++ py " fenced " ++ triple_sq ++ [nl])].

Definition files_x10 : list (list N * list N) :=
  [(py "a", py "0"); (py "b", py "2")].

Definition tree_x12 : node :=
  Dir [ (py "main.py", File (Text (py "print(1)")));
        (py "docs", Dir [(py "index.md", File (Text (py "# Title")))]) ].

Definition entries_x14 : list (Path * node) :=
  reverse (rglob (parse_path (py "proj")) tree_x12).

Definition files_x15 : list (list N * list N) :=
  [(py "notes.txt", py "first"); (py "bin/run.sh", py "echo");
   (py "./notes.txt", py "second")].

Definition fs_x15_end : fs :=
  match _create_directory_structure files_x15 (py "out") fs_c9 with
  | Returned s => s
  | Raised _ => fs_c9
  end.

Definition files_x16 : list (list N * list N) :=
  [(py "/etc/cron.d/job", py "* * * * *")].

Definition fs_x18 : fs :=
  mkFs {[ mkPath [] [py "out"] := FsDir 493;
          mkPath [] [py "out"; py "keep.txt"] := FsFile (py "old") 384 ]} 18.

Definition fs_x18_end : fs :=
  match _create_directory_structure files_c9 (py "out") fs_x18 with
  | Returned s => s
  | Raised _ => fs_x18
  end.

Definition fs_x20 : fs :=
  mkFs {[ mkPath [] [py "notes.spec"] := FsFile doc_x1 420 ]} 18.

Definition tree_x21 : node :=
  Dir [ (py "run.sh", File (Text ([nl] ++ py "echo hi" ++ [nl])));
        (py "docs", Dir [(py "index.md", File (Text (py "# Title" ++ [nl])))]);
        (py "logo.png", File DecodeError) ].

Definition fs_x21_end : fs :=
  match filify (py "proj") (py "project.spec") tree_x21 fs_c9 with
  | Returned s => s
  | Raised _ => fs_c9
  end.

Definition fs_x16 : fs :=
  mkFs {[ mkPath [] [py "p.spec"]
          := FsFile (_generate_spec_content files_x10) 420 ]} 18.

(** ** The separator pattern: what it matches *)

#[local] Set Warnings "-clear-no-such-hyp".

Section RegexFacts.
Context {A : Type}.
Implicit Types (k : list N → option A) (r : A).

Lemma lit_Some c s k r :
  lit c s k = Some r ↔ ∃ s', s = c :: s' ∧ k s' = Some r.
Proof.
  unfold lit. destruct s as [|x s'].
  - split; [done | by intros (? & ? & _)].
  - destruct (N.eqb_spec x c) as [->|Hne].
    + split; [eauto | by intros (? & [= <-] & ?)].
    + split; [done | intros (? & [= -> ] & _); done].
Qed.

Lemma greedy_sound c s : ∀ min k r,
  greedy c min s k = Some r →
  ∃ j s', s = replicate j c ++ s' ∧ (min ≤ j)%nat ∧ k s' = Some r.
Proof.
  induction s as [|x s IH]; intros min k r; simpl.
  - destruct min; [|done]. intros H. exists O, []. split_and!; [done | lia | done].
  - destruct (N.eqb_spec x c) as [->|Hne].
    + destruct (greedy c (pred min) s k) as [r'|] eqn:Hg.
      * intros [= ->]. apply IH in Hg as (j & s' & -> & Hj & Hk).
        exists (S j), s'. split_and!; [done | lia | done].
      * destruct min; [|done]. intros H. exists O, (c :: s).
        split_and!; [done | lia | done].
    + destruct min; [|done]. intros H. exists O, (x :: s).
      split_and!; [done | lia | done].
Qed.

Lemma greedy_run c k s' :
  (∀ t, k (c :: t) = None) → head s' ≠ Some c →
  ∀ j min,
    greedy c min (replicate j c ++ s') k
    = if decide (min ≤ j)%nat then k s' else None.
Proof.
  intros Hk Hs'. induction j as [|j IH]; intros min; simpl.
  - destruct s' as [|x s'].
    + destruct min; repeat case_decide; done || lia.
    + simpl. destruct (N.eqb_spec x c) as [->|Hne]; [done|].
      destruct min; repeat case_decide; done || lia.
  - rewrite N.eqb_refl, IH.
    destruct min as [|min]; simpl.
    + rewrite Hk. repeat case_decide; try lia. by destruct (k s').
    + repeat case_decide; try lia; by destruct (k s').
Qed.
End RegexFacts.

Section LazyFacts.
Context {A : Type}.
Implicit Types (k : list N → list N → option A) (r : A).

Lemma lazy_dots_sound s : ∀ g0 k r,
  lazy_dots g0 s k = Some r →
  ∃ g s', s = g ++ s' ∧ g ≠ [] ∧ (nl ∉ g) ∧ k (g0 ++ g) s' = Some r.
Proof.
  induction s as [|x s IH]; intros g0 k r; cbn [lazy_dots]; [done|].
  destruct (N.eqb_spec x nl) as [Heq|Hne]; [done|].
  destruct (k (g0 ++ [x]) s) as [r'|] eqn:Hk.
  - intros [= ->]. exists [x], s. split_and!; try done.
    intros ?%list_elem_of_singleton. congruence.
  - intros (g & s' & -> & _ & Hnl & Hr)%IH.
    exists (x :: g), s'. rewrite <- (assoc_L (++)) in Hr.
    split_and!; try done.
    intros [?|?]%elem_of_cons; [congruence | done].
Qed.

Lemma lazy_dots_first k r s' : ∀ g g0,
  g ≠ [] → nl ∉ g →
  k (g0 ++ g) s' = Some r →
  (∀ g1 g2, g = g1 ++ g2 → g1 ≠ [] → g2 ≠ [] →
            k (g0 ++ g1) (g2 ++ s') = None) →
  lazy_dots g0 (g ++ s') k = Some r.
Proof.
  induction g as [|x g IH]; intros g0 Hg Hnl Hk Hfail; [done|].
  cbn [lazy_dots app].
  apply not_elem_of_cons in Hnl as [Hx Hnl].
  destruct (N.eqb_spec x nl) as [Heq|_]; [done|].
  destruct g as [|y g].
  - simpl in *. by rewrite Hk.
  - rewrite (Hfail [x] (y :: g)) by done.
    apply IH; try done.
    + by rewrite <- (assoc_L (++)).
    + intros g1 g2 Hg12 Hg1 Hg2. rewrite <- (assoc_L (++)).
      apply Hfail; [by rewrite Hg12 | done | done].
Qed.
End LazyFacts.

Lemma at_eol_spec s : at_eol s = true ↔ s = [] ∨ ∃ s', s = nl :: s'.
Proof.
  destruct s as [|x s]; simpl.
  - split; auto.
  - rewrite N.eqb_eq. split.
    + intros ->. eauto.
    + intros [|[s' [= -> _]]]; done.
Qed.

Lemma nl_not_in_sep_line n m g : nl ∉ g → nl ∉ sep_line n m g.
Proof.
  intros Hg. unfold sep_line.
  rewrite !not_elem_of_app, !not_elem_of_cons.
  split_and!; try done; try (by intros [[=] _]%elem_of_replicate);
    by intros ?%elem_of_nil.
Qed.

(** A match is a separator line, followed by the end of its line. *)
Lemma match_sep_sound bol s g rest :
  match_sep bol s = Some (g, rest) →
  bol = true ∧
  ∃ n m, s = sep_line n m g ++ rest ∧ (10 ≤ n)%nat ∧ (10 ≤ m)%nat
         ∧ g ≠ [] ∧ (nl ∉ g) ∧ at_eol rest = true.
Proof.
  unfold match_sep. destruct bol; [|done]. intros H. split; [done|].
  apply lit_Some in H as (s1 & -> & H).
  apply lit_Some in H as (s2 & -> & H).
  apply greedy_sound in H as (n & s3 & -> & Hn & H).
  apply lit_Some in H as (s4 & -> & H).
  apply lazy_dots_sound in H as (g' & s5 & -> & Hg & Hnl & H).
  apply lit_Some in H as (s6 & -> & H).
  apply greedy_sound in H as (m & s7 & -> & Hm & H).
  destruct (at_eol s7) eqn:Heol; [|done]. injection H as <- <-.
  exists n, m. unfold sep_line. rewrite <- !(assoc_L (++)).
  split_and!; done.
Qed.

(** Text that starts with a character other than [c] and has no newline
    before it is never a run of [c] up to the end of a line. *)
Lemma not_run_to_eol c l : ∀ j t s2,
  l ++ t = replicate j c ++ s2 → (∃ x, x ∈ l ∧ x ≠ c) → nl ∉ l →
  at_eol s2 = true → False.
Proof.
  induction l as [|x l IH]; intros j t s2 Heq (y & Hy & Hyc) Hnl Heol.
  - by apply elem_of_nil in Hy.
  - apply not_elem_of_cons in Hnl as [Hx Hnl]. destruct j as [|j]; simpl in *.
    + subst s2. simpl in Heol. apply N.eqb_eq in Heol. done.
    + injection Heq as -> Heq. apply (IH _ _ _ Heq); [|done..].
      apply elem_of_cons in Hy as [->|Hy]; [done|]. eauto.
Qed.

(** A separator line at the start of a line, ending its line, matches, and
    the group is the text between the two runs of equals signs. *)
Lemma match_sep_complete n m g rest :
  (10 ≤ n)%nat → (10 ≤ m)%nat → g ≠ [] → nl ∉ g → at_eol rest = true →
  match_sep true (sep_line n m g ++ rest) = Some (g, rest).
Proof.
  intros Hn Hm Hg Hnl Heol. unfold match_sep, sep_line.
  rewrite <- !(assoc_L (++)). cbn [app lit]. rewrite !N.eqb_refl.
  rewrite greedy_run; [|done..]. rewrite decide_True by done.
  cbn [app lit]. rewrite N.eqb_refl.
  assert (Htail : ∀ t : list N, at_eol t = true → head t ≠ Some eqc).
  { intros t [->|[t' ->]]%at_eol_spec; done. }
  apply lazy_dots_first; [done.. | |].
  - cbn [app lit]. rewrite N.eqb_refl.
    rewrite greedy_run; [| done | by apply Htail].
    rewrite decide_True by done. by rewrite Heol.
  - intros g1 g2 -> Hg1 Hg2.
    destruct (lit sp _ _) as [r|] eqn:H; [exfalso|done].
    apply lit_Some in H as (s1 & Hs1 & H).
    apply greedy_sound in H as (j & s2 & -> & _ & H).
    destruct (at_eol s2) eqn:Heol2; [|done].
    destruct g2 as [|x g2]; [done|]. injection Hs1 as -> Hs1.
    rewrite not_elem_of_app, not_elem_of_cons in Hnl.
    destruct Hnl as (_ & _ & Hnl).
    apply (not_run_to_eol eqc (g2 ++ [sp]) j (replicate m eqc ++ rest) s2).
    + by rewrite <- (assoc_L (++)).
    + exists sp. split; [set_solver | done].
    + rewrite not_elem_of_app, not_elem_of_cons, elem_of_nil. naive_solver.
    + done.
Qed.

Lemma match_sep_shorter bol s g rest :
  match_sep bol s = Some (g, rest) → (length rest < length s)%nat.
Proof.
  intros (_ & n & m & -> & _)%match_sep_sound.
  rewrite length_app. unfold sep_line. simpl. lia.
Qed.

Lemma match_sep_not_bol s : match_sep false s = None.
Proof. done. Qed.

(** The first newline of a text is where its first line ends. *)
Lemma first_line_unique (a b x y : list N) :
  nl ∉ a → nl ∉ b → a ++ nl :: x = b ++ nl :: y → a = b ∧ x = y.
Proof.
  revert b. induction a as [|c a IH]; intros [|d b] Ha Hb Heq; simpl in *.
  - by injection Heq as ->.
  - injection Heq as <- _. set_solver.
  - injection Heq as -> _. set_solver.
  - injection Heq as -> Heq.
    apply not_elem_of_cons in Ha as [_ Ha], Hb as [_ Hb].
    destruct (IH b Ha Hb Heq) as [-> ->]. done.
Qed.

(** A match attempt looks at one line only. *)
Lemma match_sep_line l r :
  nl ∉ l →
  match_sep true (l ++ nl :: r)
  = (λ gr, (gr.1, nl :: r)) <$> match_sep true l.
Proof.
  intros Hl. destruct (match_sep true l) as [[g rest]|] eqn:Hm; simpl.
  - apply match_sep_sound in Hm as (_ & n & m & -> & Hn & Hm & Hg & Hnl & Heol).
    apply at_eol_spec in Heol as [->|[s' ->]]; [|set_solver].
    rewrite (right_id_L [] (++)). by apply match_sep_complete.
  - destruct (match_sep true (l ++ nl :: r)) as [[g rest]|] eqn:Hm'; [|done].
    apply match_sep_sound in Hm' as (_ & n & m & Heq & Hn & Hm' & Hg & Hnl & Heol).
    apply at_eol_spec in Heol as [->|[s' ->]].
    + rewrite (right_id_L [] (++)) in Heq.
      pose proof (nl_not_in_sep_line n m g Hnl) as Hin.
      rewrite <- Heq in Hin. set_solver.
    + apply first_line_unique in Heq as [-> _];
        [|done|by apply nl_not_in_sep_line].
      rewrite <- (right_id_L [] (++) (sep_line n m g)) in Hm.
      rewrite match_sep_complete in Hm; done.
Qed.

Lemma match_sep_whole_line l g rest :
  nl ∉ l → match_sep true l = Some (g, rest) → rest = [].
Proof.
  intros Hl (_ & n & m & -> & _ & _ & _ & _ & Heol)%match_sep_sound.
  apply at_eol_spec in Heol as [->|[s' ->]]; [done | set_solver].
Qed.

(** ** [re.split]: the scan *)

Lemma split_go_fuel f1 : ∀ f2 bol cur s,
  (length s < f1)%nat → (length s < f2)%nat →
  split_go f1 bol cur s = split_go f2 bol cur s.
Proof.
  induction f1 as [|f1 IH]; intros [|f2] bol cur s H1 H2; try lia.
  simpl. destruct (match_sep bol s) as [[g rest]|] eqn:Hm.
  - apply match_sep_shorter in Hm. f_equal. f_equal. apply IH; lia.
  - destruct s as [|x s]; [done|]. simpl in *. apply IH; lia.
Qed.

(** The scan, one position at a time. *)
Lemma splits_unfold bol cur s :
  splits bol cur s =
  match match_sep bol s with
  | Some (g, rest) => cur :: g :: splits false [] rest
  | None =>
      match s with
      | [] => [cur]
      | x :: s' => splits (x =? nl) (cur ++ [x]) s'
      end
  end.
Proof.
  unfold splits at 1. cbn [split_go].
  destruct (match_sep bol s) as [[g rest]|] eqn:Hm.
  - apply match_sep_shorter in Hm. f_equal. f_equal.
    unfold splits. apply split_go_fuel; lia.
  - destruct s as [|x s]; [done|]. done.
Qed.

Lemma re_split_splits content : re_split content = splits true [] content.
Proof. done. Qed.

Lemma splits_no_match bol cur x s :
  match_sep bol (x :: s) = None →
  splits bol cur (x :: s) = splits (x =? nl) (cur ++ [x]) s.
Proof. intros H. by rewrite splits_unfold, H. Qed.

Lemma split_on_cons_nl s : split_on nl (nl :: s) = [] :: split_on nl s.
Proof. done. Qed.

Lemma split_on_nonempty sep s : split_on sep s ≠ [].
Proof.
  destruct s as [|c s]; simpl; [done|].
  destruct (c =? sep); [done|]. by destruct (split_on sep s).
Qed.

Lemma split_on_cons_other x s :
  x ≠ nl →
  ∃ l ls, split_on nl s = l :: ls ∧ split_on nl (x :: s) = (x :: l) :: ls.
Proof.
  intros Hx. simpl. destruct (N.eqb_spec x nl); [done|].
  destruct (split_on nl s) as [|l ls] eqn:Hs; [by apply split_on_nonempty in Hs|].
  eauto.
Qed.

(** A text is its first line, then a newline and the other lines. *)
Lemma split_on_first_line s :
  ∃ l ls, split_on nl s = l :: ls ∧ (nl ∉ l) ∧
          (ls = [] ∧ s = l ∨ ∃ s', s = l ++ nl :: s' ∧ ls = split_on nl s').
Proof.
  induction s as [|x s (l & ls & Hs & Hl & IH)].
  - exists [], []. set_solver.
  - destruct (decide (x = nl)) as [->|Hx].
    + exists [], (split_on nl s). rewrite split_on_cons_nl.
      split_and!; [done | set_solver | right; by exists s].
    + destruct (split_on_cons_other x s Hx) as (l' & ls' & Hs' & ->).
      rewrite Hs in Hs'. injection Hs' as <- <-.
      exists (x :: l), ls. split_and!; [done | set_solver |].
      destruct IH as [[-> ->]|(s' & -> & ->)]; [by left|].
      right. by exists s'.
Qed.

(** Text in which no line (after the first, when the scan is inside a
    line) is a separator is passed over, up to the newline that ends it. *)
Lemma splits_pass c : ∀ bol cur rest,
  (∀ l, l ∈ lines_from bol c → match_sep true l = None) →
  splits bol cur (c ++ nl :: rest) = splits true (cur ++ c ++ [nl]) rest.
Proof.
  induction c as [|x c IH]; intros bol cur rest Hfree.
  - simpl. rewrite splits_no_match; [by rewrite N.eqb_refl|].
    by destruct bol.
  - assert (Hm : match_sep bol ((x :: c) ++ nl :: rest) = None).
    { destruct bol; [|done].
      destruct (split_on_first_line (x :: c)) as (l & ls & Hs & Hl & Hc).
      assert (Hnone : match_sep true l = None).
      { apply Hfree. unfold lines_from. rewrite Hs. set_solver. }
      destruct Hc as [[_ Hc]|(s' & Hc & _)]; rewrite Hc.
      - by rewrite match_sep_line, Hnone.
      - rewrite <- (assoc_L (++)). cbn [app].
        by rewrite match_sep_line, Hnone. }
    cbn [app] in *. rewrite splits_no_match by done.
    rewrite IH; [by rewrite <- !(assoc_L (++))|].
    intros l Hl. apply Hfree. unfold lines_from in *.
    destruct (N.eqb_spec x nl) as [->|Hx].
    + rewrite split_on_cons_nl. destruct bol; set_solver.
    + destruct (split_on_cons_other x c Hx) as (l' & ls' & Hs' & ->).
      rewrite Hs' in Hl. simpl in Hl. destruct bol; set_solver.
Qed.

(** The same at the end of the document. *)
Lemma splits_pass_end c : ∀ bol cur,
  (∀ l, l ∈ lines_from bol c → match_sep true l = None) →
  splits bol cur c = [cur ++ c].
Proof.
  induction c as [|x c IH]; intros bol cur Hfree.
  - rewrite splits_unfold. replace (match_sep bol []) with (@None (list N * list N)).
    + by rewrite (right_id_L [] (++)).
    + by destruct bol.
  - assert (Hm : match_sep bol (x :: c) = None).
    { destruct bol; [|done].
      destruct (split_on_first_line (x :: c)) as (l & ls & Hs & Hl & Hc).
      assert (Hnone : match_sep true l = None).
      { apply Hfree. unfold lines_from. rewrite Hs. set_solver. }
      destruct Hc as [[_ Hc]|(s' & Hc & _)]; rewrite Hc; [done|].
      by rewrite match_sep_line, Hnone. }
    rewrite splits_no_match by done.
    rewrite IH; [by rewrite <- !(assoc_L (++))|].
    intros l Hl. apply Hfree. unfold lines_from in *.
    destruct (N.eqb_spec x nl) as [->|Hx].
    + rewrite split_on_cons_nl. destruct bol; set_solver.
    + destruct (split_on_cons_other x c Hx) as (l' & ls' & Hs' & ->).
      rewrite Hs' in Hl. simpl in Hl. destruct bol; set_solver.
Qed.

(** ** Trimming *)

Lemma lstrip_space_app w s : all_space w → lstrip (w ++ s) = lstrip s.
Proof. induction 1 as [|c w Hc _ IH]; simpl; [done|]. by rewrite Hc. Qed.

Lemma lstrip_split s : ∃ w, s = w ++ lstrip s ∧ all_space w.
Proof.
  induction s as [|c s (w & Hs & Hw)]; simpl.
  - exists []. split; [done | constructor].
  - destruct (isspace c) eqn:Hc.
    + exists (c :: w). split; [simpl; congruence | by constructor].
    + exists []. split; [done | constructor].
Qed.

Lemma lstrip_head s :
  lstrip s = [] ∨ ∃ x r, lstrip s = x :: r ∧ isspace x = false.
Proof.
  induction s as [|c s IH]; simpl; [by left|].
  destruct (isspace c) eqn:Hc; [done|]. right. eauto.
Qed.

Lemma lstrip_fixed x r : isspace x = false → lstrip (x :: r) = x :: r.
Proof. intros H. simpl. by rewrite H. Qed.

Lemma lstrip_idemp s : lstrip (lstrip s) = lstrip s.
Proof.
  destruct (lstrip_head s) as [->|(x & r & -> & Hx)]; [done|].
  by apply lstrip_fixed.
Qed.

Lemma lstrip_all_space w : all_space w → lstrip w = [].
Proof.
  intros Hw. rewrite <- (right_id_L [] (++) w). by rewrite lstrip_space_app.
Qed.

Lemma lstrip_app s t :
  lstrip (s ++ t) = if decide (lstrip s = []) then lstrip t else lstrip s ++ t.
Proof.
  induction s as [|c s IH]; cbn [lstrip app].
  - by rewrite decide_True.
  - destruct (isspace c); [done|]. by rewrite decide_False.
Qed.

Lemma all_space_reverse w : all_space w → all_space (reverse w).
Proof. unfold all_space. by rewrite Forall_reverse. Qed.

Lemma rstrip_split s : ∃ w, s = rstrip s ++ w ∧ all_space w.
Proof.
  destruct (lstrip_split (reverse s)) as (w & Hs & Hw).
  exists (reverse w). split; [|by apply all_space_reverse].
  unfold rstrip. rewrite <- reverse_app, <- Hs. by rewrite reverse_involutive.
Qed.

Lemma rstrip_app_space s w : all_space w → rstrip (s ++ w) = rstrip s.
Proof.
  intros Hw. unfold rstrip. rewrite reverse_app.
  by rewrite lstrip_space_app by by apply all_space_reverse.
Qed.

Lemma rstrip_idemp s : rstrip (rstrip s) = rstrip s.
Proof. unfold rstrip. by rewrite reverse_involutive, lstrip_idemp. Qed.

Lemma rstrip_nil : rstrip [] = [].
Proof. done. Qed.

(** Trimming on the right keeps a text trimmed on the left so. *)
Lemma lstrip_rstrip_lstrip s : lstrip (rstrip (lstrip s)) = rstrip (lstrip s).
Proof.
  destruct (rstrip_split (lstrip s)) as (w & Hs & Hw).
  destruct (rstrip (lstrip s)) as [|x r] eqn:Hr; [done|].
  destruct (lstrip_head s) as [H0|(y & r' & H1 & Hy)].
  - rewrite H0 in Hs. done.
  - rewrite H1 in Hs. injection Hs as -> _. by apply lstrip_fixed.
Qed.

(** [strip] is idempotent. *)
Lemma strip_idemp s : strip (strip s) = strip s.
Proof.
  unfold strip. by rewrite lstrip_rstrip_lstrip, rstrip_idemp.
Qed.

(** White space around a text does not change what [strip] gives. *)
Lemma strip_surrounded w1 s w2 :
  all_space w1 → all_space w2 → strip (w1 ++ s ++ w2) = strip s.
Proof.
  intros H1 H2. unfold strip. rewrite lstrip_space_app by done.
  rewrite lstrip_app. case_decide as Hs.
  - by rewrite Hs, lstrip_all_space.
  - by rewrite rstrip_app_space.
Qed.

Lemma strip_nil : strip [] = [].
Proof. done. Qed.

(** ** Prefixes, suffixes and slices *)

Lemma startswith_app p s : startswith (p ++ s) p = true.
Proof.
  induction p as [|c p IH]; simpl; [by destruct s|]. by rewrite N.eqb_refl.
Qed.

Lemma endswith_app p s : endswith (s ++ p) p = true.
Proof. unfold endswith. rewrite reverse_app. apply startswith_app. Qed.

Lemma startswith_spec s p : startswith s p = true ↔ ∃ t, s = p ++ t.
Proof.
  split; [|intros [t ->]; apply startswith_app].
  revert s. induction p as [|c p IH]; intros s; simpl; [by eauto|].
  destruct s as [|x s]; [done|].
  intros [->%N.eqb_eq [t ->]%IH]%andb_true_iff. by exists t.
Qed.

Lemma endswith_spec s p : endswith s p = true ↔ ∃ t, s = t ++ p.
Proof.
  unfold endswith. rewrite startswith_spec. split.
  - intros [t Ht]. exists (reverse t).
    apply (inj reverse). by rewrite Ht, reverse_app, reverse_involutive.
  - intros [t ->]. exists (reverse t). by rewrite reverse_app.
Qed.

Lemma slice_between (q1 mid q2 : list N) :
  slice_from_to_end (length q1) (length q2) (q1 ++ mid ++ q2) = mid.
Proof.
  unfold slice_from_to_end. rewrite !length_app.
  replace (length q1 + (length mid + length q2) - length q2)%nat
    with (length q1 + length mid)%nat by lia.
  rewrite (assoc_L (++)), take_app_length' by (rewrite length_app; lia).
  by rewrite drop_app_length.
Qed.

(** ** Dictionaries *)

Lemma dict_get_set_eq k v d : dict_get k (dict_set k v d) = Some v.
Proof.
  induction d as [|[k' v'] d IH]; simpl.
  - by rewrite decide_True.
  - destruct (decide (k' = k)) as [->|Hne]; simpl.
    + by rewrite decide_True.
    + by rewrite decide_False.
Qed.

Lemma dict_get_set_ne k k' v d :
  k ≠ k' → dict_get k (dict_set k' v d) = dict_get k d.
Proof.
  intros Hne. induction d as [|[k0 v0] d IH]; simpl.
  - by rewrite decide_False.
  - destruct (decide (k0 = k')) as [->|Hne']; simpl.
    + by rewrite !decide_False.
    + by rewrite IH.
Qed.

Lemma dict_get_None k d : dict_get k d = None ↔ k ∉ dict_keys d.
Proof.
  unfold dict_keys. induction d as [|[k' v'] d IH]; simpl.
  - split; [set_solver | done].
  - destruct (decide (k' = k)) as [->|Hne].
    + split; [done | set_solver].
    + rewrite IH. set_solver.
Qed.

Lemma dict_get_Some_elem k v d : dict_get k d = Some v → (k, v) ∈ d.
Proof.
  induction d as [|[k' v'] d IH]; simpl; [done|].
  destruct (decide (k' = k)) as [->|Hne].
  - intros [= ->]. set_solver.
  - set_solver.
Qed.

Lemma dict_get_elem k v d :
  NoDup (dict_keys d) → (k, v) ∈ d → dict_get k d = Some v.
Proof.
  unfold dict_keys. induction d as [|[k' v'] d IH]; simpl.
  - intros _ ?%elem_of_nil. done.
  - intros [Hk' Hd]%NoDup_cons [[= -> ->]|Hin]%elem_of_cons.
    + by rewrite decide_True.
    + rewrite decide_False; [by apply IH|].
      intros ->. apply Hk'. apply list_elem_of_fmap. by exists (k, v).
Qed.

Lemma dict_set_fresh k v d :
  k ∉ dict_keys d → dict_set k v d = d ++ [(k, v)].
Proof.
  unfold dict_keys. induction d as [|[k' v'] d IH]; simpl; [done|].
  intros [Hne Hk]%not_elem_of_cons.
  rewrite decide_False by done. by rewrite IH.
Qed.

(** Storing entries with distinct new keys appends them in order. *)
Lemma store_fresh (f : list N * list N → list N * list N) items : ∀ acc,
  (∀ e, (f e).1 = e.1) →
  NoDup (dict_keys (acc ++ items)) →
  foldl (λ d e, dict_set (f e).1 (f e).2 d) acc items = acc ++ (f <$> items).
Proof.
  unfold dict_keys.
  induction items as [|[k v] items IH]; intros acc Hf Hnd; simpl.
  - by rewrite (right_id_L [] (++)).
  - rewrite dict_set_fresh.
    + rewrite IH; [by rewrite <- (assoc_L (++)), <- surjective_pairing | done |].
      rewrite <- (assoc_L (++)). cbn [app].
      rewrite !fmap_app in *. rewrite !fmap_cons in *. cbn [fmap list_fmap].
      by rewrite Hf.
    + rewrite Hf. simpl. unfold dict_keys.
      rewrite fmap_app, fmap_cons in Hnd.
      apply NoDup_app in Hnd as (_ & Hnd & _).
      intros Hin. apply (Hnd k Hin). set_solver.
Qed.

(** Two insertion orders of the same entries are one mapping. *)
Lemma dict_eq_Permutation d1 d2 :
  NoDup (dict_keys d1) → d1 ≡ₚ d2 → dict_eq d1 d2.
Proof.
  intros Hnd Hp k.
  assert (Hnd2 : NoDup (dict_keys d2)).
  { unfold dict_keys in *. by rewrite <- Hp. }
  destruct (dict_get k d1) as [v|] eqn:H1.
  - symmetry. apply dict_get_elem; [done|].
    rewrite <- Hp. by apply dict_get_Some_elem.
  - symmetry. apply dict_get_None. apply dict_get_None in H1.
    unfold dict_keys in *. by rewrite <- Hp.
Qed.

Lemma Permutation_dict_eq d1 d2 :
  NoDup (dict_keys d1) → NoDup (dict_keys d2) → dict_eq d1 d2 → d1 ≡ₚ d2.
Proof.
  intros H1 H2 Heq. apply NoDup_Permutation.
  - eapply NoDup_fmap_1, H1.
  - eapply NoDup_fmap_1, H2.
  - intros [k v]. split; intros Hin.
    + apply dict_get_Some_elem. rewrite <- Heq. by apply dict_get_elem.
    + apply dict_get_Some_elem. rewrite Heq. by apply dict_get_elem.
Qed.

Lemma dict_keys_set k v d k' :
  k' ∈ dict_keys (dict_set k v d) ↔ k' = k ∨ k' ∈ dict_keys d.
Proof.
  unfold dict_keys. induction d as [|[k0 v0] d IH]; simpl.
  - set_solver.
  - destruct (decide (k0 = k)) as [->|Hne]; simpl; set_solver.
Qed.

Lemma dict_set_NoDup k v d :
  NoDup (dict_keys d) → NoDup (dict_keys (dict_set k v d)).
Proof.
  induction d as [|[k0 v0] d IH]; simpl.
  - intros _. apply NoDup_singleton.
  - intros [Hk0 Hd]%NoDup_cons.
    destruct (decide (k0 = k)) as [->|Hne]; simpl.
    + by apply NoDup_cons.
    + apply NoDup_cons. split; [|by apply IH].
      change (k0 ∉ dict_keys (dict_set k v d)).
      rewrite dict_keys_set. naive_solver.
Qed.

(** ** The loop of the Splitter *)

Lemma split_go_shape fuel : ∀ bol cur s,
  ∃ x0 ps, split_go fuel bol cur s = x0 :: flat_pairs ps.
Proof.
  induction fuel as [|fuel IH]; intros bol cur s; simpl.
  - by exists (cur ++ s), [].
  - destruct (match_sep bol s) as [[g rest]|].
    + destruct (IH false [] rest) as (x0 & ps & ->).
      by exists cur, ((g, x0) :: ps).
    + destruct s as [|x s]; [by exists cur, []|]. apply IH.
Qed.

Lemma length_flat_pairs ps : length (flat_pairs ps) = (2 * length ps)%nat.
Proof. induction ps as [|p ps IH]; simpl; [done|]. rewrite IH. lia. Qed.

Lemma parse_loop_pairs ps : ∀ pre acc n,
  (length (pre ++ flat_pairs ps) ≤ n + length pre)%nat →
  foldl (parse_step (pre ++ flat_pairs ps)) acc
        (range_aux n (length pre) (length (pre ++ flat_pairs ps)) 2)
  = foldl store acc ps.
Proof.
  induction ps as [|[g c] ps IH]; intros pre acc n Hn.
  - simpl. rewrite (right_id_L [] (++)). destruct n; simpl; [done|].
    by rewrite Nat.ltb_irrefl.
  - change (flat_pairs ((g, c) :: ps)) with (g :: c :: flat_pairs ps) in *.
    rewrite length_app in Hn. simpl in Hn.
    destruct n as [|n]; [lia|]. cbn [range_aux].
    replace (length pre <? length (pre ++ g :: c :: flat_pairs ps))%nat
      with true by (symmetry; apply Nat.ltb_lt; rewrite length_app; simpl; lia).
    cbn [foldl]. unfold parse_step at 2.
    replace (length pre + 1 <? length (pre ++ g :: c :: flat_pairs ps))%nat
      with true by (symmetry; apply Nat.ltb_lt; rewrite length_app; simpl; lia).
    assert (H1 : (pre ++ g :: c :: flat_pairs ps) !!! length pre = g).
    { apply list_lookup_total_correct. by apply list_lookup_middle. }
    assert (H2 : (pre ++ g :: c :: flat_pairs ps) !!! (length pre + 1)%nat = c).
    { apply list_lookup_total_correct.
      change (g :: c :: flat_pairs ps) with ([g] ++ c :: flat_pairs ps).
      rewrite (assoc_L (++)). apply list_lookup_middle.
      rewrite length_app. simpl. lia. }
    rewrite H1, H2.
    change (g :: c :: flat_pairs ps) with ([g; c] ++ flat_pairs ps).
    rewrite (assoc_L (++)).
    replace (length pre + 2)%nat with (length (pre ++ [g; c]))
      by (rewrite length_app; simpl; lia).
    rewrite IH; [done|]. rewrite !length_app in *. simpl in *. lia.
Qed.

(** The document as the Splitter sees it: the preamble and the pairs of a
    path and the text that follows it, in the order of the document. *)
Lemma parse_as_pairs content :
  ∃ x0 ps, re_split content = x0 :: flat_pairs ps ∧
           _parse_spec_file content = foldl store [] ps.
Proof.
  destruct (split_go_shape (S (length content)) true [] content)
    as (x0 & ps & Hs).
  exists x0, ps. split; [done|].
  unfold _parse_spec_file, py_range. cbv zeta. unfold re_split. rewrite Hs.
  apply (parse_loop_pairs ps [x0]). simpl. lia.
Qed.

Lemma parse_of_sections content x0 ps :
  re_split content = x0 :: flat_pairs ps →
  _parse_spec_file content = foldl store [] ps.
Proof.
  intros Hs. unfold _parse_spec_file, py_range. cbv zeta. rewrite Hs.
  apply (parse_loop_pairs ps [x0]). simpl. lia.
Qed.

(** The last pair with a given trimmed path decides what the path maps to. *)
Lemma store_last_wins ps1 g c ps2 acc :
  (∀ p, p ∈ ps2 → strip p.1 ≠ strip g) →
  dict_get (strip g) (foldl store acc (ps1 ++ (g, c) :: ps2))
  = Some (clean_content c).
Proof.
  revert ps1 acc. induction ps2 as [|p ps2 IH] using rev_ind; intros ps1 acc Hlater.
  - rewrite foldl_app. simpl. unfold store at 1. simpl.
    apply dict_get_set_eq.
  - rewrite app_comm_cons, (assoc_L (++)), foldl_app. simpl.
    unfold store at 1. rewrite dict_get_set_ne.
    + apply IH. intros q Hq. apply Hlater. set_solver.
    + intros Heq. apply (Hlater p); [set_solver | done].
Qed.

(** Every key and every value stored is trimmed. *)
Lemma clean_content_trimmed b : strip (clean_content b) = clean_content b.
Proof.
  unfold clean_content. repeat case_match; apply strip_idemp.
Qed.

Lemma store_trimmed ps : ∀ acc,
  (∀ k v, dict_get k acc = Some v → strip k = k ∧ strip v = v) →
  ∀ k v, dict_get k (foldl store acc ps) = Some v → strip k = k ∧ strip v = v.
Proof.
  induction ps as [|p ps IH]; intros acc Hacc; simpl; [done|].
  apply IH. intros k v. unfold store.
  destruct (decide (k = strip p.1)) as [->|Hne].
  - rewrite dict_get_set_eq. intros [= <-].
    split; [apply strip_idemp | apply clean_content_trimmed].
  - rewrite dict_get_set_ne by done. apply Hacc.
Qed.

(** ** The scan, line by line *)

Lemma lines_ind (P : list N → Prop) :
  (∀ l, nl ∉ l → P l) →
  (∀ l s, nl ∉ l → P s → P (l ++ nl :: s)) →
  ∀ s, P s.
Proof.
  intros Hbase Hstep s.
  cut (∀ pre, nl ∉ pre → P (pre ++ s)).
  { intros H. apply (H []). set_solver. }
  induction s as [|x s IH]; intros pre Hpre.
  - rewrite (right_id_L [] (++)). by apply Hbase.
  - destruct (decide (x = nl)) as [->|Hx].
    + apply Hstep; [done|]. apply (IH []). set_solver.
    + rewrite (cons_middle x), (assoc_L (++)). apply IH. set_solver.
Qed.

Lemma split_on_one_line l : nl ∉ l → split_on nl l = [l].
Proof.
  induction l as [|x l IH]; [done|].
  intros [Hx Hl]%not_elem_of_cons. simpl.
  destruct (N.eqb_spec x nl); [congruence|]. by rewrite IH.
Qed.

(** What the scan does with a line that a newline ends. *)
Lemma splits_line bol cur l r :
  nl ∉ l →
  splits bol cur (l ++ nl :: r) =
  match match_sep bol l with
  | Some (g, _) => cur :: g :: splits true [nl] r
  | None => splits true (cur ++ l ++ [nl]) r
  end.
Proof.
  intros Hl. destruct (match_sep bol l) as [[g rest]|] eqn:Hm.
  - destruct bol; [|done].
    rewrite splits_unfold, match_sep_line, Hm by done. simpl.
    by rewrite splits_no_match, N.eqb_refl.
  - apply splits_pass. intros l' Hl'.
    destruct bol; simpl in Hl'; rewrite split_on_one_line in Hl' by done.
    + by apply list_elem_of_singleton in Hl' as ->.
    + by apply elem_of_nil in Hl'.
Qed.

(** What it does with the last line of the document. *)
Lemma splits_last_line bol cur l :
  nl ∉ l →
  splits bol cur l =
  match match_sep bol l with
  | Some (g, _) => [cur; g; []]
  | None => [cur ++ l]
  end.
Proof.
  intros Hl. destruct (match_sep bol l) as [[g rest]|] eqn:Hm.
  - destruct bol; [|done].
    rewrite splits_unfold, Hm. apply match_sep_whole_line in Hm as ->; [|done].
    by rewrite splits_unfold.
  - apply splits_pass_end. intros l' Hl'.
    destruct bol; simpl in Hl'; rewrite split_on_one_line in Hl' by done.
    + by apply list_elem_of_singleton in Hl' as ->.
    + by apply elem_of_nil in Hl'.
Qed.

(** Whatever comes first, a separator line that ends the document gives the
    last pair, with nothing after its path. *)
Lemma splits_final_separator line g pre :
  match_sep true line = Some (g, []) → nl ∉ line →
  ∀ bol cur, ∃ x0 ps,
    splits bol cur (pre ++ nl :: line) = x0 :: flat_pairs (ps ++ [(g, [])]).
Proof.
  intros Hline Hnl. induction pre as [l Hl|l s Hl IH] using lines_ind;
    intros bol cur.
  - rewrite splits_line by done.
    destruct (match_sep bol l) as [[g' ?]|].
    + rewrite splits_last_line, Hline by done.
      by exists cur, [(g', [nl])].
    + rewrite splits_last_line, Hline by done.
      by exists (cur ++ l ++ [nl]), [].
  - rewrite <- (assoc_L (++)). cbn [app]. rewrite splits_line by done.
    destruct (match_sep bol l) as [[g' ?]|].
    + destruct (IH true [nl]) as (x0 & ps & ->).
      by exists cur, ((g', x0) :: ps).
    + apply IH.
Qed.

(** ** The order on entries *)

Lemma str_lt_lexico a b : str_lt a b = true ↔ lexico a b.
Proof.
  revert b. induction a as [|x a IH]; intros [|y b]; simpl; try done.
  change (lexico (x :: a) (y :: b)) with (x < y ∨ x = y ∧ lexico a b).
  destruct (N.ltb_spec x y) as [Hxy|Hxy].
  - split; [by left | done].
  - destruct (N.ltb_spec y x) as [Hyx|Hyx].
    + split; [done | intros [?|[-> _]]; lia].
    + rewrite IH. assert (x = y) as -> by lia.
      split; [by right | intros [?|[_ ?]]; [lia | done]].
Qed.

Lemma tuple_lt_lexico p q : tuple_lt p q = true ↔ lexico p q.
Proof.
  unfold tuple_lt, lexico, prod_lexico. case_decide as Heq.
  - rewrite str_lt_lexico, Heq. split; [by right|].
    intros [H|[_ H]]; [|done]. by apply (irreflexivity lexico) in H.
  - rewrite str_lt_lexico. split; [by left | by intros [H|[? _]]].
Qed.

Lemma tuple_le_lexico p q : tuple_le p q ↔ ¬ lexico q p.
Proof.
  unfold tuple_le. rewrite <- tuple_lt_lexico. by destruct (tuple_lt q p).
Qed.

Global Instance tuple_le_total : Total tuple_le.
Proof.
  intros p q. rewrite !tuple_le_lexico.
  destruct (trichotomy lexico p q) as [H|[->|H]].
  - left. intros H'. apply (irreflexivity lexico p). by trans q.
  - left. apply (irreflexivity lexico).
  - right. intros H'. apply (irreflexivity lexico p). by trans q.
Qed.

Global Instance tuple_le_trans : Transitive tuple_le.
Proof.
  intros p q r. rewrite !tuple_le_lexico. intros Hpq Hqr Hrp.
  destruct (trichotomy lexico p q) as [H|[->|H]]; [|done..].
  apply Hqr. by trans p.
Qed.

Global Instance tuple_le_antisymm : AntiSymm (=) tuple_le.
Proof.
  intros p q. rewrite !tuple_le_lexico. intros Hpq Hqp.
  by destruct (trichotomy lexico p q) as [H|[->|H]].
Qed.

Lemma sorted_Permutation d : sorted d ≡ₚ d.
Proof. apply merge_sort_Permutation. Qed.

Lemma sorted_Sorted d : Sorted tuple_le (sorted d).
Proof. apply (Sorted_merge_sort _). Qed.

(** [sorted] does not depend on the order of its input. *)
Lemma sorted_unique d1 d2 : d1 ≡ₚ d2 → sorted d1 = sorted d2.
Proof.
  intros Hp. apply (Sorted_unique tuple_le); [apply sorted_Sorted..|].
  by rewrite !sorted_Permutation.
Qed.

(** Entries of a dictionary come out with their paths in strictly
    ascending order. *)
Lemma sorted_by_path d :
  NoDup (dict_keys d) →
  StronglySorted (λ a b, str_lt a.1 b.1 = true) (sorted d).
Proof.
  intros Hnd.
  assert (Hnd' : NoDup (dict_keys (sorted d))).
  { unfold dict_keys. by rewrite sorted_Permutation. }
  pose proof (Sorted_StronglySorted _ _ (sorted_Sorted d)) as Hs.
  unfold dict_keys in Hnd'. clear Hnd.
  induction Hs as [|a l Hl IH Ha]; [constructor|].
  rewrite fmap_cons in Hnd'. apply NoDup_cons in Hnd' as [Hal Hnd'].
  constructor; [by apply IH|].
  rewrite Forall_forall in Ha |- *. intros b Hb.
  specialize (Ha b Hb). apply tuple_le_lexico in Ha.
  apply str_lt_lexico.
  destruct (trichotomy lexico a.1 b.1) as [H|[H|H]]; [done | |].
  - exfalso. apply Hal. rewrite H. apply list_elem_of_fmap. by exists b.
  - exfalso. apply Ha. by left.
Qed.

Lemma generate_doc_of files :
  _generate_spec_content files = doc_of (sorted files).
Proof.
  unfold _generate_spec_content, doc_of. cbv zeta. f_equal.
  cut (∀ acc : list (list N),
    foldl (λ parts '(filepath, file_content),
             parts ++ [separator filepath; file_content; []]) acc (sorted files)
    = acc ++ (sorted files ≫= λ e, [separator e.1; e.2; []])).
  { intros H. apply (H []). }
  induction (sorted files) as [|[p c] l IH]; intros acc; simpl.
  - by rewrite (right_id_L [] (++)).
  - rewrite IH. by rewrite <- (assoc_L (++)).
Qed.

(** ** The Splitter on what the Composer writes *)

Lemma doc_of_cons p c items :
  doc_of ((p, c) :: items) =
  separator p ++ nl :: c ++ nl ::
    match items with [] => [] | _ => nl :: doc_of items end.
Proof.
  unfold doc_of. destruct items as [|e items]; [done|]. done.
Qed.

Lemma separator_sep_line p : separator p = sep_line 20 20 p.
Proof. done. Qed.

Lemma match_separator p :
  p ≠ [] → nl ∉ p → match_sep true (separator p) = Some (p, []).
Proof.
  intros Hp Hnl. rewrite separator_sep_line.
  rewrite <- (right_id_L [] (++) (sep_line 20 20 p)).
  apply match_sep_complete; (done || lia).
Qed.

Lemma splits_doc_of items : ∀ cur,
  Forall valid_entry items →
  splits true cur (doc_of items) = cur :: flat_pairs (padded items).
Proof.
  induction items as [|[p c] items IH]; intros cur Hv.
  - by rewrite splits_unfold.
  - apply Forall_cons in Hv as [[(Hp & Hnl & _) (_ & _ & Hfree)] Hv].
    simpl in *. rewrite doc_of_cons.
    rewrite splits_line by (by apply nl_not_in_sep_line).
    rewrite match_separator by done.
    change (flat_pairs ((p, ?x) :: ?l)) with (p :: x :: flat_pairs l).
    f_equal. f_equal.
    rewrite splits_pass by (by apply Forall_forall).
    destruct items as [|e items].
    + by rewrite splits_unfold.
    + rewrite splits_no_match by done. rewrite N.eqb_refl.
      rewrite IH by done. by rewrite <- !(assoc_L (++)).
Qed.

Lemma all_space_nl : all_space [nl].
Proof. by repeat constructor. Qed.

Lemma clean_content_valid w1 c w2 :
  valid_content c → all_space w1 → all_space w2 →
  clean_content (w1 ++ c ++ w2) = c.
Proof.
  intros (Hc & Hw & _) H1 H2. unfold clean_content. cbv zeta.
  rewrite strip_surrounded, Hc by done.
  unfold wrapped in Hw. apply orb_false_iff in Hw as [-> ->]. done.
Qed.

Lemma store_padded items : ∀ acc,
  Forall valid_entry items →
  foldl store acc (padded items)
  = foldl (λ d e, dict_set (id e).1 (id e).2 d) acc items.
Proof.
  induction items as [|[p c] items IH]; intros acc Hv; [done|].
  apply Forall_cons in Hv as [[(_ & _ & Hp) Hc] Hv]. simpl in *.
  rewrite IH by done. f_equal. unfold store. simpl. rewrite Hp. f_equal.
  apply (clean_content_valid [nl] c (nl :: _)); [done | apply all_space_nl |].
  destruct items; by repeat constructor.
Qed.

(** The Splitter gives back the entries the Composer wrote, in the order
    it wrote them. *)
Lemma parse_generate files :
  NoDup (dict_keys files) → Forall valid_entry files →
  _parse_spec_file (_generate_spec_content files) = sorted files.
Proof.
  intros Hnd Hv. rewrite generate_doc_of.
  assert (Hv' : Forall valid_entry (sorted files))
    by by rewrite sorted_Permutation.
  rewrite (parse_of_sections _ [] (padded (sorted files)))
    by (rewrite re_split_splits; by apply splits_doc_of).
  rewrite store_padded by done.
  rewrite store_fresh; [by rewrite list_fmap_id | done |].
  unfold dict_keys in *. by rewrite sorted_Permutation.
Qed.

(** ** The indices of the loop *)

Lemma elem_of_range_aux n : ∀ a L i,
  i ∈ range_aux n a L 2 ↔ ∃ m, i = (a + 2 * m)%nat ∧ (i < L)%nat ∧ (m < n)%nat.
Proof.
  induction n as [|n IH]; intros a L i; simpl.
  - split; [by intros ?%elem_of_nil | intros (m & _ & _ & ?); lia].
  - destruct (Nat.ltb_spec a L) as [Ha|Ha].
    + rewrite elem_of_cons, IH. split.
      * intros [->|(m & -> & Hi & Hm)].
        -- exists O. lia.
        -- exists (S m). lia.
      * intros ([|m] & -> & Hi & Hm).
        -- left. lia.
        -- right. exists m. lia.
    + split; [by intros ?%elem_of_nil | intros (m & -> & ? & _); lia].
Qed.

Lemma elem_of_py_range_odd L i :
  i ∈ py_range 1 L 2 ↔ ∃ m, i = (2 * m + 1)%nat ∧ (i < L)%nat.
Proof.
  unfold py_range. rewrite elem_of_range_aux. split.
  - intros (m & -> & ? & _). exists m. lia.
  - intros (m & -> & ?). exists m. lia.
Qed.

Lemma lookup_flat_pairs x0 ps : ∀ m p,
  ps !! m = Some p →
  (x0 :: flat_pairs ps) !! (2 * m + 1)%nat = Some p.1 ∧
  (x0 :: flat_pairs ps) !! (2 * m + 1 + 1)%nat = Some p.2.
Proof.
  revert x0. induction ps as [|q ps IH]; intros x0 m p; [done|].
  destruct m as [|m]; simpl.
  - by intros [= ->].
  - intros Hm. replace (m + S (m + 0) + 1)%nat with (S (2 * m + 1)) by lia.
    change (flat_pairs (q :: ps)) with (q.1 :: q.2 :: flat_pairs ps).
    simpl. apply (IH q.2 m p Hm).
Qed.

(** The sections of a document, seen from an index of the loop. *)
Lemma sections_at content i :
  i ∈ py_range 1 (length (re_split content)) 2 →
  ∃ x0 ps m g c,
    re_split content = x0 :: flat_pairs ps ∧ i = (2 * m + 1)%nat ∧
    ps !! m = Some (g, c) ∧
    re_split content !!! i = g ∧ re_split content !!! (i + 1)%nat = c ∧
    (i + 1 < length (re_split content))%nat.
Proof.
  destruct (parse_as_pairs content) as (x0 & ps & Hs & _).
  rewrite Hs. intros (m & -> & Hi)%elem_of_py_range_odd.
  simpl in Hi. rewrite length_flat_pairs in Hi.
  destruct (ps !! m) as [[g c]|] eqn:Hm;
    [|apply lookup_ge_None in Hm; lia].
  destruct (lookup_flat_pairs x0 ps m (g, c) Hm) as [H1 H2].
  exists x0, ps, m, g, c. split_and!; try done.
  - by apply list_lookup_total_correct.
  - by apply list_lookup_total_correct.
  - simpl. rewrite length_flat_pairs. apply lookup_lt_Some in Hm. lia.
Qed.

Lemma sections_final_separator pre n m g :
  pre = [] ∨ last pre = Some nl →
  (10 ≤ n)%nat → (10 ≤ m)%nat → g ≠ [] → nl ∉ g →
  ∃ x0 ps,
    re_split (pre ++ sep_line n m g) = x0 :: flat_pairs (ps ++ [(g, [])]).
Proof.
  intros Hpre Hn Hm Hg Hnl.
  assert (Hline : match_sep true (sep_line n m g) = Some (g, [])).
  { rewrite <- (right_id_L [] (++) (sep_line n m g)).
    by apply match_sep_complete. }
  pose proof (nl_not_in_sep_line n m g Hnl) as Hnl'.
  rewrite re_split_splits. destruct Hpre as [->|(pre' & ->)%last_Some].
  - simpl. rewrite splits_last_line, Hline by done. by exists [], [].
  - rewrite <- (assoc_L (++)). by apply splits_final_separator.
Qed.

(** ** Properties of the Splitter and of the Composer *)

(** C1, as stated, fails: the content [hello] followed by a newline has no
    line that matches the separator pattern, and yet the Splitter gives
    back [hello] without the newline for what the Composer wrote. *)
Lemma roundtrip_loses_trailing_newline :
  NoDup (dict_keys doc_c1) ∧
  Forall (λ e, sep_free e.2) doc_c1 ∧
  _parse_spec_file (_generate_spec_content doc_c1) = [(py "a.txt", py "hello")] ∧
  ¬ dict_eq (_parse_spec_file (_generate_spec_content doc_c1)) doc_c1.
Proof.
  assert (Hp : _parse_spec_file (_generate_spec_content doc_c1)
               = [(py "a.txt", py "hello")]) by by vm_compute.
  split_and!.
  - apply (bool_decide_unpack _). by vm_compute.
  - apply (bool_decide_unpack _). by vm_compute.
  - done.
  - intros Heq. specialize (Heq (py "a.txt")). rewrite Hp in Heq.
    vm_compute in Heq. discriminate.
Qed.

(** C1, amended: for a dictionary whose paths are not empty, hold no
    newline and are trimmed, and whose contents are trimmed, not fenced by
    triple quotes and without a line that matches the separator pattern,
    the Splitter on the document of the Composer gives the dictionary back:
    the same paths, each with the same content. *)
Theorem roundtrip_trimmed files :
  NoDup (dict_keys files) → Forall valid_entry files →
  dict_eq (_parse_spec_file (_generate_spec_content files)) files.
Proof.
  intros Hnd Hv. rewrite parse_generate by done.
  apply dict_eq_Permutation; [|apply sorted_Permutation].
  unfold dict_keys in *. by rewrite sorted_Permutation.
Qed.

Lemma roundtrip_trimmed_witness :
  NoDup (dict_keys files_c1) ∧ Forall valid_entry files_c1 ∧
  dict_eq (_parse_spec_file (_generate_spec_content files_c1)) files_c1.
Proof.
  assert (H1 : NoDup (dict_keys files_c1)) by (apply (bool_decide_unpack _); by vm_compute).
  assert (H2 : Forall valid_entry files_c1) by (apply (bool_decide_unpack _); by vm_compute).
  split_and!; [done | done | by apply (roundtrip_trimmed files_c1)].
Defined.

(** C5: the document depends on the entries only, not on the order in
    which they were inserted, and holds them by ascending path. *)
Theorem composer_deterministic d1 d2 :
  NoDup (dict_keys d1) → NoDup (dict_keys d2) → dict_eq d1 d2 →
  _generate_spec_content d1 = _generate_spec_content d2 ∧
  ∃ items,
    items ≡ₚ d1 ∧
    StronglySorted (λ a b, str_lt a.1 b.1 = true) items ∧
    _generate_spec_content d1
    = join [nl] (items ≫= λ e, [separator e.1; e.2; []]).
Proof.
  intros H1 H2 Heq. split.
  - rewrite !generate_doc_of. f_equal. apply sorted_unique.
    by apply Permutation_dict_eq.
  - exists (sorted d1). split_and!.
    + apply sorted_Permutation.
    + by apply sorted_by_path.
    + apply generate_doc_of.
Qed.

Lemma composer_deterministic_witness :
  NoDup (dict_keys files_c5a) ∧ NoDup (dict_keys files_c5b) ∧
  dict_eq files_c5a files_c5b ∧
  _generate_spec_content files_c5a = _generate_spec_content files_c5b.
Proof.
  assert (H1 : NoDup (dict_keys files_c5a)) by (apply (bool_decide_unpack _); by vm_compute).
  assert (H2 : NoDup (dict_keys files_c5b)) by (apply (bool_decide_unpack _); by vm_compute).
  assert (H3 : dict_eq files_c5a files_c5b).
  { apply dict_eq_Permutation; [done|].
    symmetry.
    apply (Permutation_cons_append
             [(py "b", py "2"); (py "a/z", py "1")] (py "a", py "0")). }
  split_and!; [done..|]. by apply (composer_deterministic files_c5a files_c5b).
Defined.

Lemma clean_content_unwrap block q mid :
  q = triple_dq ∨ q = triple_sq → strip block = q ++ mid ++ q →
  clean_content block = strip mid.
Proof.
  intros Hq Hb. unfold clean_content. cbv zeta. rewrite Hb.
  assert (Hlen : length q = 3%nat) by by destruct Hq as [->| ->].
  assert (Hs : slice_from_to_end 3 3 (q ++ mid ++ q) = mid).
  { rewrite <- Hlen. apply slice_between. }
  rewrite Hs. destruct Hq as [->| ->].
  - by rewrite startswith_app, (assoc_L (++)), endswith_app.
  - replace (startswith (triple_sq ++ mid ++ triple_sq) triple_dq)
      with false by done.
    by rewrite startswith_app, (assoc_L (++)), endswith_app.
Qed.

(** C6: at every round of the loop, a content block that, trimmed, is a
    text between a pair of triple double quotes or of triple single quotes
    is stored without that one pair and trimmed again; and the block of
    [hello], a newline and [world] between triple double quotes is parsed
    to these two lines. *)
Theorem quote_unwrapping content i q mid files :
  i ∈ py_range 1 (length (re_split content)) 2 →
  q = triple_dq ∨ q = triple_sq →
  strip (re_split content !!! (i + 1)%nat) = q ++ mid ++ q →
  parse_step (re_split content) files i
  = dict_set (strip (re_split content !!! i)) (strip mid) files
  ∧ _parse_spec_file doc_c6
    = [(py "notes.txt", py "hello" ++ [nl] ++ py "world")].
Proof.
  intros Hi Hq Hb. split; [|by vm_compute].
  destruct (sections_at content i Hi)
    as (x0 & ps & m & g & c & Hs & Hm & Hps & Hg & Hc & Hlt).
  unfold parse_step. apply Nat.ltb_lt in Hlt. rewrite Hlt.
  by rewrite (clean_content_unwrap _ q mid).
Qed.

Lemma quote_unwrapping_witness :
  (1%nat ∈ py_range 1 (length (re_split doc_c6)) 2) ∧
  (triple_dq = triple_dq ∨ triple_dq = triple_sq) ∧
  strip (re_split doc_c6 !!! (1 + 1)%nat)
  = triple_dq ++ (py "hello" ++ [nl] ++ py "world") ++ triple_dq ∧
  parse_step (re_split doc_c6) [] 1
  = dict_set (strip (re_split doc_c6 !!! 1%nat))
             (strip (py "hello" ++ [nl] ++ py "world")) [].
Proof.
  assert (H1 : 1%nat ∈ py_range 1 (length (re_split doc_c6)) 2)
    by (apply (bool_decide_unpack _); by vm_compute).
  assert (H3 : strip (re_split doc_c6 !!! (1 + 1)%nat)
    = triple_dq ++ (py "hello" ++ [nl] ++ py "world") ++ triple_dq)
    by by vm_compute.
  split_and!; [done | by left | done |].
  by apply (quote_unwrapping doc_c6 1 triple_dq _ [] H1 (or_introl eq_refl) H3).
Defined.

(** C7: a separator line that ends the document, with nothing after it,
    still gives an entry: its path, trimmed, maps to the empty string. *)
Theorem trailing_separator_kept pre n m g :
  pre = [] ∨ last pre = Some nl →
  (10 ≤ n)%nat → (10 ≤ m)%nat → g ≠ [] → nl ∉ g →
  dict_get (strip g) (_parse_spec_file (pre ++ sep_line n m g)) = Some [].
Proof.
  intros Hpre Hn Hm Hg Hnl.
  destruct (sections_final_separator pre n m g) as (x0 & ps & Hs); [done..|].
  rewrite (parse_of_sections _ _ _ Hs).
  by rewrite store_last_wins by by intros ? ?%elem_of_nil.
Qed.

Lemma trailing_separator_kept_witness :
  (pre_c7 = [] ∨ last pre_c7 = Some nl) ∧
  (10 ≤ 10)%nat ∧ (10 ≤ 12)%nat ∧ py "b.txt" ≠ [] ∧ (nl ∉ py "b.txt") ∧
  dict_get (strip (py "b.txt"))
    (_parse_spec_file (pre_c7 ++ sep_line 10 12 (py "b.txt"))) = Some [].
Proof.
  assert (H1 : pre_c7 = [] ∨ last pre_c7 = Some nl) by by right.
  assert (H2 : py "b.txt" ≠ []) by done.
  assert (H3 : nl ∉ py "b.txt")
    by (apply (bool_decide_unpack _); by vm_compute).
  split_and!; [done | lia | lia | done | done |].
  apply (trailing_separator_kept pre_c7 10 12 (py "b.txt")); [done | lia | lia | done | done].
Defined.

(** C8: when a trimmed path stands on several separator lines, the mapping
    binds it to the content after the last of them: the content of an
    occurrence that no later occurrence of the same trimmed path follows. *)
Theorem last_occurrence_wins content i :
  i ∈ py_range 1 (length (re_split content)) 2 →
  (∀ j, j ∈ py_range 1 (length (re_split content)) 2 → (i < j)%nat →
        strip (re_split content !!! j) ≠ strip (re_split content !!! i)) →
  dict_get (strip (re_split content !!! i)) (_parse_spec_file content)
  = Some (clean_content (re_split content !!! (i + 1)%nat)).
Proof.
  intros Hi Hlater.
  destruct (sections_at content i Hi)
    as (x0 & ps & m & g & c & Hs & -> & Hm & Hg & Hc & Hlt).
  rewrite Hg, Hc in *. rewrite (parse_of_sections _ _ _ Hs).
  rewrite <- (take_drop_middle ps m (g, c) Hm).
  apply store_last_wins. intros p [k Hk]%list_elem_of_lookup.
  rewrite lookup_drop in Hk.
  destruct (lookup_flat_pairs x0 ps _ p Hk) as [H1 _].
  rewrite <- Hs in H1. apply list_lookup_total_correct in H1.
  rewrite <- H1. apply Hlater; [|lia].
  apply elem_of_py_range_odd. exists (S m + k)%nat. split; [lia|].
  rewrite Hs. simpl. rewrite length_flat_pairs.
  apply lookup_lt_Some in Hk. lia.
Qed.

Lemma last_occurrence_wins_witness :
  (5%nat ∈ py_range 1 (length (re_split doc_c8)) 2) ∧
  (∀ j, j ∈ py_range 1 (length (re_split doc_c8)) 2 → (5 < j)%nat →
        strip (re_split doc_c8 !!! j) ≠ strip (re_split doc_c8 !!! 5%nat)) ∧
  dict_get (py "a.txt") (_parse_spec_file doc_c8) = Some (py "second").
Proof.
  assert (H1 : 5%nat ∈ py_range 1 (length (re_split doc_c8)) 2)
    by (apply (bool_decide_unpack _); by vm_compute).
  assert (H2 : ∀ j, j ∈ py_range 1 (length (re_split doc_c8)) 2 → (5 < j)%nat →
        strip (re_split doc_c8 !!! j) ≠ strip (re_split doc_c8 !!! 5%nat)).
  { intros j (k & -> & Hj)%elem_of_py_range_odd Hlt.
    replace (length (re_split doc_c8)) with 7%nat in Hj by by vm_compute.
    lia. }
  split_and!; [done | done |].
  exact (last_occurrence_wins doc_c8 5 H1 H2).
Defined.

(** C10: every path and every content of the mapping the Splitter returns
    is trimmed. *)
Theorem parsed_entries_trimmed content k v :
  dict_get k (_parse_spec_file content) = Some v →
  strip k = k ∧ strip v = v.
Proof.
  destruct (parse_as_pairs content) as (x0 & ps & _ & ->).
  by apply store_trimmed.
Qed.

Lemma parsed_entries_trimmed_witness :
  dict_get (py "spaced path") (_parse_spec_file doc_c10) = Some (py "body") ∧
  strip (py "spaced path") = py "spaced path" ∧ strip (py "body") = py "body".
Proof.
  assert (H : dict_get (py "spaced path") (_parse_spec_file doc_c10)
              = Some (py "body")) by by vm_compute.
  split; [done|]. exact (parsed_entries_trimmed doc_c10 _ _ H).
Defined.

(** ** The Scanner *)

Lemma node_nested_ind (P : node → Prop) :
  (∀ r, P (File r)) →
  (∀ entries, Forall (λ e, P e.2) entries → P (Dir entries)) →
  ∀ n, P n.
Proof.
  intros Hfile Hdir.
  refine (fix IH (n : node) : P n :=
    match n with
    | File r => Hfile r
    | Dir entries =>
        Hdir entries
          ((fix go (es : list (list N * node)) : Forall (λ e, P e.2) es :=
              match es with
              | [] => List.Forall_nil _
              | e :: es' => List.Forall_cons _ e es' (IH e.2) (go es')
              end) entries)
    end).
Qed.

(** What [rglob] yields is below the directory it starts from. *)
Lemma rglob_below n : ∀ pp fp m,
  (fp, m) ∈ rglob pp n →
  ∃ names, names ≠ [] ∧ fp = mkPath (root pp) (parts pp ++ names) ∧
           (names_ok n → Forall (λ x, slash ∉ x) names).
Proof.
  induction n as [r|entries IH] using node_nested_ind; intros pp fp m; simpl.
  - by intros ?%elem_of_nil.
  - rewrite elem_of_app, list_elem_of_fmap, list_elem_of_bind.
    rewrite Forall_forall in IH.
    intros [(e & [= -> ->] & He)|(e & Hin & He)].
    + exists [e.1]. split_and!; [done | done |].
      intros Hok. inversion Hok as [|? Hes]; subst.
      rewrite Forall_forall in Hes. constructor; [|constructor].
      by apply Hes.
    + destruct (IH e He _ _ _ Hin) as (names & Hne & -> & Hok').
      exists (e.1 :: names). split_and!; [done | |].
      * simpl. by rewrite <- (assoc_L (++)).
      * intros Hok. inversion Hok as [|? Hes]; subst.
        rewrite Forall_forall in Hes. destruct (Hes e He) as [? ?].
        constructor; [done | by apply Hok'].
Qed.

Lemma relative_to_below pp names :
  relative_to (mkPath (root pp) (parts pp ++ names)) pp = Some (mkPath [] names).
Proof.
  unfold relative_to. simpl. rewrite decide_True.
  - by rewrite drop_app_length.
  - split; [done | by apply prefix_app_r].
Qed.

Lemma path_str_relative names :
  names ≠ [] → path_str (mkPath [] names) = join [slash] names.
Proof. by destruct names. Qed.

Lemma first_sep_unique (c : N) (a b x y : list N) :
  c ∉ a → c ∉ b → a ++ c :: x = b ++ c :: y → a = b ∧ x = y.
Proof.
  revert b. induction a as [|d a IH]; intros [|e b] Ha Hb Heq; simpl in *.
  - by injection Heq as ->.
  - injection Heq as <- _. set_solver.
  - injection Heq as -> _. set_solver.
  - injection Heq as -> Heq.
    apply not_elem_of_cons in Ha as [_ Ha], Hb as [_ Hb].
    destruct (IH b Ha Hb Heq) as [-> ->]. done.
Qed.

Lemma join_cons2 sep a b l : join sep (a :: b :: l) = a ++ sep ++ join sep (b :: l).
Proof. done. Qed.

(** Components without a slash are read back from the joined path. *)
Lemma join_slash_inj a : ∀ b,
  a ≠ [] → b ≠ [] →
  Forall (λ x, slash ∉ x) a → Forall (λ x, slash ∉ x) b →
  join [slash] a = join [slash] b → a = b.
Proof.
  induction a as [|x a IH]; intros [|y b] Ha Hb Hxa Hyb Heq; try done.
  apply Forall_cons in Hxa as [Hx Hxa], Hyb as [Hy Hyb].
  destruct a as [|x2 a], b as [|y2 b].
  - simpl in Heq. by subst.
  - rewrite join_cons2 in Heq. simpl in Heq. subst x. set_solver.
  - rewrite join_cons2 in Heq. simpl in Heq. subst y. set_solver.
  - rewrite !join_cons2 in Heq. cbn [app] in Heq.
    apply first_sep_unique in Heq as [-> Heq]; [|done..].
    f_equal. by apply IH.
Qed.

Lemma should_skip_hidden fp :
  startswith (path_name fp) [dot] = true → path_name fp ≠ env_example →
  should_skip fp = true.
Proof.
  intros Hdot Hne. unfold should_skip, skip_patterns.
  cbn [existsb]. rewrite Hdot, (bool_decide_eq_false_2 _ Hne). simpl.
  by rewrite orb_true_r.
Qed.

(** Where the entries of the returned mapping come from. *)
Lemma scan_loop_origin pp entries : ∀ files0 out0 files out k v,
  scan_loop pp (files0, out0) entries = Returned (files, out) →
  dict_get k files = Some v →
  dict_get k files0 = Some v ∨
  ∃ fp rel, (fp, File (Text v)) ∈ entries ∧ should_skip fp = false ∧
            relative_to fp pp = Some rel ∧ k = path_str rel.
Proof.
  induction entries as [|[fp n] es IH]; intros files0 out0 files out k v; simpl.
  - intros [= -> ->]. by left.
  - destruct (is_file n && negb (should_skip fp)) eqn:Hsel.
    + apply andb_true_iff in Hsel as [Hfile Hskip].
      apply negb_true_iff in Hskip.
      destruct (relative_to fp pp) as [rel|] eqn:Hrel.
      * destruct n as [[c| |]|sub]; try done.
        -- intros Hrun Hget.
           destruct (IH _ _ _ _ _ _ Hrun Hget) as [H0|(fp' & rel' & ? & ? & ? & ?)].
           ++ destruct (decide (k = path_str rel)) as [->|Hk].
              ** rewrite dict_get_set_eq in H0. injection H0 as ->.
                 right. exists fp, rel. set_solver.
              ** rewrite dict_get_set_ne in H0 by done. by left.
           ++ right. exists fp', rel'. set_solver.
        -- intros Hrun Hget.
           destruct (IH _ _ _ _ _ _ Hrun Hget) as [H0|(fp' & rel' & ? & ? & ? & ?)];
             [by left|]. right. exists fp', rel'. set_solver.
      * intros Hrun Hget.
        destruct (IH _ _ _ _ _ _ Hrun Hget) as [H0|(fp' & rel' & ? & ? & ? & ?)];
          [by left|]. right. exists fp', rel'. set_solver.
    + intros Hrun Hget.
      destruct (IH _ _ _ _ _ _ Hrun Hget) as [H0|(fp' & rel' & ? & ? & ? & ?)];
        [by left|]. right. exists fp', rel'. set_solver.
Qed.

Lemma scan_step_cases pp files out fp n :
  scan_step pp (files, out) (fp, n) =
  if is_file n && negb (should_skip fp) then
    match relative_to fp pp, n with
    | Some rel, File (Text c) =>
        Returned (dict_set (path_str rel) c files, out ++ [Added (path_str rel)])
    | Some rel, File DecodeError =>
        Returned (files, out ++ [SkippedBinary (path_str rel)])
    | Some rel, File PermissionDenied => Raised PermissionError
    | _, _ => Returned (files, out)
    end
  else Returned (files, out).
Proof.
  unfold scan_step. destruct (is_file n && negb (should_skip fp)); [|done].
  destruct (relative_to fp pp); [|done]. by destruct n as [[]|].
Qed.

Lemma scan_step_out_mono pp st e st' x :
  scan_step pp st e = Returned st' → x ∈ st.2 → x ∈ st'.2.
Proof.
  destruct st as [files out], e as [fp n]. rewrite scan_step_cases.
  repeat case_match; intros [= <-]; set_solver.
Qed.

Lemma scan_loop_out_mono pp es : ∀ st st' x,
  scan_loop pp st es = Returned st' → x ∈ st.2 → x ∈ st'.2.
Proof.
  induction es as [|e es IH]; intros st st' x; cbn [scan_loop].
  - by intros [= ->].
  - destruct (scan_step pp st e) as [st1|] eqn:Hstep; [|done].
    intros Hrun Hx. eapply IH; [done|]. by eapply scan_step_out_mono.
Qed.

(** Without a permission error on a file that is read, the scan returns. *)
Lemma scan_loop_returns pp es : ∀ st,
  (∀ fp, (fp, File PermissionDenied) ∈ es → should_skip fp = true) →
  ∃ st', scan_loop pp st es = Returned st'.
Proof.
  induction es as [|[fp n] es IH]; intros [files out] Hperm; cbn [scan_loop].
  - eauto.
  - assert (∃ st1, scan_step pp (files, out) (fp, n) = Returned st1) as [st1 ->].
    { rewrite scan_step_cases.
      destruct (is_file n && negb (should_skip fp)) eqn:Hsel; [|eauto].
      destruct (relative_to fp pp); [|eauto].
      destruct n as [[c| |]|]; eauto.
      apply andb_true_iff in Hsel as [_ Hskip]. apply negb_true_iff in Hskip.
      rewrite (Hperm fp) in Hskip by set_solver. done. }
    apply IH. intros fp' Hin. apply Hperm. set_solver.
Qed.

(** A file that does not decode, when it is read, is reported. *)
Lemma scan_loop_reports pp es : ∀ st st' fp rel,
  scan_loop pp st es = Returned st' →
  (fp, File DecodeError) ∈ es → should_skip fp = false →
  relative_to fp pp = Some rel →
  SkippedBinary (path_str rel) ∈ st'.2.
Proof.
  induction es as [|e es IH]; intros st st' fp rel; cbn [scan_loop].
  - by intros _ ?%elem_of_nil.
  - destruct (scan_step pp st e) as [st1|] eqn:Hstep; [|done].
    intros Hrun [<-|Hin]%elem_of_cons Hskip Hrel; [|by eapply IH].
    eapply scan_loop_out_mono; [done|].
    destruct st as [files out]. rewrite scan_step_cases in Hstep.
    rewrite Hskip, Hrel in Hstep. simpl in Hstep. injection Hstep as <-.
    set_solver.
Qed.

(** A permission error on a file that is read ends the scan. *)
Lemma scan_loop_raises pp es : ∀ st fp rel,
  (fp, File PermissionDenied) ∈ es → should_skip fp = false →
  relative_to fp pp = Some rel →
  scan_loop pp st es = Raised PermissionError.
Proof.
  induction es as [|e es IH]; intros st fp rel; cbn [scan_loop].
  - by intros ?%elem_of_nil.
  - intros [<-|Hin]%elem_of_cons Hskip Hrel.
    + destruct st as [files out]. rewrite scan_step_cases.
      by rewrite Hskip, Hrel.
    + destruct (scan_step pp st e) as [st1|[]]; [by eapply IH | done].
Qed.

Lemma contains_app_r p a s : contains p s = true → contains p (a ++ s) = true.
Proof.
  intros H. induction a as [|x a IH]; [done|].
  cbn [app contains]. rewrite IH. apply orb_true_r.
Qed.

Lemma contains_prefix p s : contains p (p ++ s) = true.
Proof.
  destruct (p ++ s) eqn:Heq; cbn [contains]; rewrite <- Heq;
    by rewrite startswith_app.
Qed.

Lemma join_snoc sep l x : ∃ a, join sep (l ++ [x]) = a ++ x.
Proof.
  induction l as [|y l [a IH]]; [by exists []|].
  destruct l as [|z l].
  - exists (y ++ sep). simpl. by rewrite <- (assoc_L (++)).
  - exists (y ++ sep ++ a). cbn [app] in *. rewrite join_cons2, IH.
    by rewrite <- !(assoc_L (++)).
Qed.

Lemma path_str_parts p :
  parts p ≠ [] → path_str p = root p ++ join [slash] (parts p).
Proof. unfold path_str. by destruct (root p), (parts p). Qed.

(** X9: The pattern [.env] is found in the path of every file whose name is
    [.env.example]: the test on the name never saves that file. *)
Lemma env_example_skipped fp :
  path_name fp = env_example → should_skip fp = true.
Proof.
  unfold path_name. intros Hname.
  destruct (last (parts fp)) as [x|] eqn:Hlast; [|done]. simpl in Hname.
  subst x. apply last_Some in Hlast as [l Hl].
  assert (Hc : contains (py ".env") (path_str fp) = true).
  { rewrite path_str_parts by (rewrite Hl; by destruct l).
    rewrite Hl. destruct (join_snoc [slash] l env_example) as [a ->].
    rewrite (assoc_L (++)). apply contains_app_r.
    apply (contains_prefix (py ".env") (py ".example")). }
  unfold should_skip, skip_patterns. cbn [existsb]. rewrite Hc. simpl.
  by rewrite !orb_true_r.
Qed.

Lemma scan_loop_files pp es : ∀ files0 out0 files out,
  scan_loop pp (files0, out0) es = Returned (files, out) →
  files = foldl (λ d e, dict_set (id e).1 (id e).2 d) files0 (selected pp es).
Proof.
  induction es as [|[fp n] es IH]; intros files0 out0 files out;
    cbn [scan_loop].
  - by intros [= <- _].
  - rewrite scan_step_cases. unfold selected. cbn [omap list_omap]. simpl.
    destruct (is_file n && negb (should_skip fp)); [|by apply IH].
    destruct (relative_to fp pp) as [rel|]; [|by destruct n; apply IH].
    destruct n as [[c| |]|sub]; try done; by intros ?%IH.
Qed.

Lemma fold_set_keys (items : list (list N * list N)) : ∀ acc k,
  k ∈ dict_keys (foldl (λ d e, dict_set e.1 e.2 d) acc items)
  ↔ k ∈ dict_keys acc ∨ k ∈ items.*1.
Proof.
  induction items as [|e items IH]; intros acc k; simpl.
  - set_solver.
  - rewrite IH, dict_keys_set. set_solver.
Qed.

(** A file that is read and decodes is one of the selected entries. *)
Lemma selected_elem pp es fp c rel :
  (fp, File (Text c)) ∈ es → should_skip fp = false →
  relative_to fp pp = Some rel →
  (path_str rel, c) ∈ selected pp es.
Proof.
  intros Hin Hskip Hrel. unfold selected. apply list_elem_of_omap.
  exists (fp, File (Text c)). split; [done|]. simpl.
  by rewrite Hskip, Hrel.
Qed.

(** ** Properties of the Scanner *)

(** C2 on the code: of [.git/config], [node_modules/x.js], [a.log] and
    [.env.example], the scan keeps [a.log] and nothing else.  The pattern
    [*.log] is looked for as a substring, asterisk included, and [a.log]
    does not hold it; the pattern [.env] is found in [.env.example]. *)
Theorem scan_exclusion_example :
  _scan_directory (py "proj") tree_c2
  = Returned ([(py "a.log", py "started")], [Added (py "a.log")]).
Proof. by vm_compute. Qed.

(** C3, as stated, fails: the file [.config/settings.txt] is below a
    directory whose name begins with a dot, and the scan keeps it. *)
Lemma dot_directory_file_kept :
  _scan_directory (py "proj") tree_c3
  = Returned ([(py ".config/settings.txt", py "k=v")],
              [Added (py ".config/settings.txt")]).
Proof. by vm_compute. Qed.

(** C3, amended: a file whose own name, the last component of its path,
    begins with a dot and is not [.env.example] is left out of the mapping
    the scan returns. *)
Theorem hidden_file_omitted project_dir tree fp r rel files out :
  names_ok tree →
  (fp, File r) ∈ rglob (parse_path project_dir) tree →
  relative_to fp (parse_path project_dir) = Some rel →
  startswith (path_name fp) [dot] = true →
  path_name fp ≠ env_example →
  _scan_directory project_dir tree = Returned (files, out) →
  dict_get (path_str rel) files = None.
Proof.
  intros Hok Hin Hrel Hdot Hne Hscan. unfold _scan_directory in Hscan.
  set (pp := parse_path project_dir) in *.
  destruct (dict_get (path_str rel) files) as [v|] eqn:Hget; [exfalso|done].
  destruct (scan_loop_origin _ _ _ _ _ _ _ _ Hscan Hget)
    as [?|(fp' & rel' & Hin' & Hskip' & Hrel' & Hstr)]; [done|].
  destruct (rglob_below _ _ _ _ Hin) as (names & Hn & -> & Hnames).
  destruct (rglob_below _ _ _ _ Hin') as (names' & Hn' & -> & Hnames').
  rewrite relative_to_below in Hrel, Hrel'.
  injection Hrel as <-. injection Hrel' as <-.
  rewrite !path_str_relative in Hstr by done.
  apply join_slash_inj in Hstr as ->; [|by auto..].
  by rewrite should_skip_hidden in Hskip'.
Qed.

Lemma hidden_file_omitted_witness :
  names_ok tree_c3w ∧
  ((mkPath [] [py "proj"; py "src"; py ".hidden"], File (Text (py "h")))
     ∈ rglob (parse_path (py "proj")) tree_c3w) ∧
  relative_to (mkPath [] [py "proj"; py "src"; py ".hidden"])
    (parse_path (py "proj")) = Some (mkPath [] [py "src"; py ".hidden"]) ∧
  startswith (path_name (mkPath [] [py "proj"; py "src"; py ".hidden"])) [dot]
    = true ∧
  path_name (mkPath [] [py "proj"; py "src"; py ".hidden"]) ≠ env_example ∧
  _scan_directory (py "proj") tree_c3w
    = Returned ([(py "src/main.py", py "m")], [Added (py "src/main.py")]) ∧
  dict_get (py "src/.hidden") [(py "src/main.py", py "m")] = None.
Proof.
  assert (H1 : names_ok tree_c3w).
  { repeat (constructor; simpl);
      try (apply (bool_decide_unpack _); by vm_compute). }
  assert (H2 : (mkPath [] [py "proj"; py "src"; py ".hidden"], File (Text (py "h")))
     ∈ rglob (parse_path (py "proj")) tree_c3w).
  { vm_compute. apply list_elem_of_further, list_elem_of_here. }
  assert (H3 : relative_to (mkPath [] [py "proj"; py "src"; py ".hidden"])
    (parse_path (py "proj")) = Some (mkPath [] [py "src"; py ".hidden"]))
    by by vm_compute.
  assert (H5 : path_name (mkPath [] [py "proj"; py "src"; py ".hidden"])
               ≠ env_example) by done.
  assert (H6 : _scan_directory (py "proj") tree_c3w
    = Returned ([(py "src/main.py", py "m")], [Added (py "src/main.py")]))
    by by vm_compute.
  split_and!;
    [exact H1 | exact H2 | exact H3 | reflexivity | exact H5 | exact H6 |].
  exact (hidden_file_omitted _ _ _ _ _ _ _ H1 H2 H3 eq_refl H5 H6).
Defined.

(** C4, as stated, fails: with one unreadable file the scan does not
    return; the error is raised out of it. *)
Lemma unreadable_file_aborts_scan :
  _scan_directory (py "proj") tree_c4 = Raised PermissionError.
Proof. by vm_compute. Qed.

(** C4, amended: a file that does not decode as text is reported and left
    out, and the scan goes on: when no file that is read is unreadable the
    scan returns, and its mapping is what storing, in the order of the
    listing, every file that is not skipped and that decodes gives; each of
    these files has its path in the mapping, with its text when no two of
    them have the same relative path; and the mapping holds texts of such
    files only.  A permission error on a file that is read is raised out
    of the scan. *)
Theorem scan_failures project_dir tree :
  ((∀ fp, (fp, File PermissionDenied) ∈ rglob (parse_path project_dir) tree →
          should_skip fp = true) →
   ∃ files out,
     _scan_directory project_dir tree = Returned (files, out) ∧
     files = foldl (λ d e, dict_set e.1 e.2 d) []
               (selected (parse_path project_dir)
                         (rglob (parse_path project_dir) tree)) ∧
     (∀ fp, (fp, File DecodeError) ∈ rglob (parse_path project_dir) tree →
            should_skip fp = false →
            ∃ rel, relative_to fp (parse_path project_dir) = Some rel ∧
                   SkippedBinary (path_str rel) ∈ out) ∧
     (∀ fp c, (fp, File (Text c)) ∈ rglob (parse_path project_dir) tree →
              should_skip fp = false →
              ∃ rel, relative_to fp (parse_path project_dir) = Some rel ∧
                     path_str rel ∈ dict_keys files ∧
                     (NoDup (dict_keys
                        (selected (parse_path project_dir)
                                  (rglob (parse_path project_dir) tree))) →
                      dict_get (path_str rel) files = Some c)) ∧
     (∀ k v, dict_get k files = Some v →
             ∃ fp rel, (fp, File (Text v)) ∈ rglob (parse_path project_dir) tree ∧
                       should_skip fp = false ∧
                       relative_to fp (parse_path project_dir) = Some rel ∧
                       k = path_str rel)) ∧
  ((∃ fp, (fp, File PermissionDenied) ∈ rglob (parse_path project_dir) tree ∧
          should_skip fp = false) →
   _scan_directory project_dir tree = Raised PermissionError).
Proof.
  unfold _scan_directory. set (pp := parse_path project_dir). split.
  - intros Hperm.
    destruct (scan_loop_returns pp (rglob pp tree) ([], []) Hperm)
      as [[files out] Hrun].
    pose proof (scan_loop_files _ _ _ _ _ _ Hrun) as Hfiles.
    exists files, out. split_and!; [done | exact Hfiles | | |].
    + intros fp Hin Hskip.
      destruct (rglob_below _ _ _ _ Hin) as (names & Hn & -> & _).
      eexists. split; [apply relative_to_below|].
      eapply (scan_loop_reports _ _ _ (files, out)); [done.. |].
      apply relative_to_below.
    + intros fp c Hin Hskip.
      destruct (rglob_below _ _ _ _ Hin) as (names & Hn & -> & _).
      eexists. split; [apply relative_to_below|].
      pose proof (selected_elem pp _ _ c _ Hin Hskip
                    (relative_to_below pp names)) as Hsel.
      split.
      * rewrite Hfiles. apply fold_set_keys. right.
        apply list_elem_of_fmap. by eexists (_, _).
      * intros Hnd. rewrite Hfiles.
        rewrite (store_fresh id); [|done|done].
        rewrite list_fmap_id. by apply dict_get_elem.
    + intros k v Hget.
      by destruct (scan_loop_origin _ _ _ _ _ _ _ _ Hrun Hget) as [?|?].
  - intros (fp & Hin & Hskip).
    destruct (rglob_below _ _ _ _ Hin) as (names & Hn & -> & _).
    eapply scan_loop_raises; [done.. |]. apply relative_to_below.
Qed.

Lemma scan_failures_witness :
  (∀ fp, (fp, File PermissionDenied) ∈ rglob (parse_path (py "proj")) tree_c4w →
         should_skip fp = true) ∧
  _scan_directory (py "proj") tree_c4w
  = Returned ([(py "b.txt", py "b")],
              [SkippedBinary (py "logo.png"); Added (py "b.txt")]) ∧
  (∃ fp, (fp, File PermissionDenied) ∈ rglob (parse_path (py "proj")) tree_c4 ∧
         should_skip fp = false) ∧
  _scan_directory (py "proj") tree_c4 = Raised PermissionError.
Proof.
  assert (H1 : ∀ fp,
    (fp, File PermissionDenied) ∈ rglob (parse_path (py "proj")) tree_c4w →
    should_skip fp = true).
  { intros fp Hin. vm_compute in Hin.
    repeat (apply elem_of_cons in Hin as [Hin|Hin]; [by simplify_eq|]).
    by apply elem_of_nil in Hin. }
  assert (H2 : ∃ fp,
    (fp, File PermissionDenied) ∈ rglob (parse_path (py "proj")) tree_c4 ∧
    should_skip fp = false).
  { exists (mkPath [] [py "proj"; py "a.txt"]). split; [|by vm_compute].
    vm_compute. apply list_elem_of_here. }
  split_and!; [done | | done |].
  - destruct (proj1 (scan_failures (py "proj") tree_c4w) H1)
      as (files & out & Hrun & _).
    by vm_compute.
  - exact (proj2 (scan_failures (py "proj") tree_c4) H2).
Defined.

(** ** The Materializer *)

Lemma fs_lookup_put s p n q :
  parts p ≠ [] →
  fs_lookup (fs_put s p n) q = if decide (q = p) then Some n else fs_lookup s q.
Proof.
  intros Hp. unfold fs_lookup, fs_put. simpl.
  case_decide as Hq.
  - subst q. destruct (parts p); [done|]. apply lookup_insert_eq.
  - destruct (parts q); [done|]. by apply lookup_insert_ne.
Qed.

Lemma fs_lookup_None_parts s p : fs_lookup s p = None → parts p ≠ [].
Proof. unfold fs_lookup. by destruct (parts p). Qed.

Lemma only_new_dirs_refl rt len s : only_new_dirs rt len s s.
Proof. split; [done | by left]. Qed.

Lemma only_new_dirs_trans rt len len' s1 s2 s3 :
  (len ≤ len')%nat →
  only_new_dirs rt len s1 s2 → only_new_dirs rt len' s2 s3 →
  only_new_dirs rt len' s1 s3.
Proof.
  intros Hlen [Hu1 H1] [Hu2 H2]. split; [congruence|]. intros q.
  destruct (H2 q) as [H23|(H2n & Hm & Hrt & Hl)].
  - destruct (H1 q) as [H12|(H1n & Hm & Hrt & Hl)].
    + left. congruence.
    + right. rewrite H23. split_and!; [done.. | lia].
  - destruct (H1 q) as [H12|(H1n & [m Hm'] & _)].
    + right. by rewrite <- H12.
    + congruence.
Qed.

Lemma os_mkdir_new_dir p s s' :
  os_mkdir p s = Returned s' →
  only_new_dirs (root p) (length (parts p)) s s'.
Proof.
  unfold os_mkdir. destruct (fs_lookup s p) eqn:Hp; [done|].
  destruct (fs_lookup s (path_parent p)) as [[m|]|]; try done.
  intros [= <-]. split; [done|]. intros q.
  rewrite fs_lookup_put by by eapply fs_lookup_None_parts.
  case_decide as Hq; [|by left]. subst q. right. split_and!; eauto.
Qed.

Lemma mkdir_parents_new_dirs rt rparts : ∀ s s',
  mkdir_parents rt rparts s = Returned s' →
  only_new_dirs rt (length rparts) s s'.
Proof.
  induction rparts as [|x rparent IH]; intros s s'; cbn [mkdir_parents].
  - destruct (os_mkdir (mkPath rt (reverse [])) s) as [s1|e] eqn:Hm.
    + intros [= <-]. by apply os_mkdir_new_dir in Hm.
    + destruct e; try done; case_match; try done;
        intros [= <-]; apply only_new_dirs_refl.
  - destruct (os_mkdir (mkPath rt (reverse (x :: rparent))) s) as [s1|e] eqn:Hm.
    + intros [= <-]. apply os_mkdir_new_dir in Hm. simpl in Hm.
      by rewrite length_reverse in Hm.
    + destruct e; try (case_match; try done; intros [= <-];
                       apply only_new_dirs_refl).
      destruct (mkdir_parents rt rparent s) as [s1|] eqn:Hp; [|done].
      apply IH in Hp.
      destruct (os_mkdir (mkPath rt (reverse (x :: rparent))) s1)
        as [s2|e] eqn:Hm2.
      * intros [= <-]. apply os_mkdir_new_dir in Hm2. simpl in Hm2.
        rewrite length_reverse in Hm2.
        eapply only_new_dirs_trans; [|done..]. simpl. lia.
      * case_match; [|done]. intros [= <-].
        eapply only_new_dirs_trans; [|done|apply only_new_dirs_refl].
        simpl. lia.
Qed.

Lemma path_mkdir_new_dirs p s s' :
  path_mkdir p s = Returned s' →
  only_new_dirs (root p) (length (parts p)) s s'.
Proof.
  unfold path_mkdir. intros H%mkdir_parents_new_dirs.
  by rewrite length_reverse in H.
Qed.





Lemma write_text_spec p content s s' :
  write_text p content s = Returned s' →
  parts p ≠ [] ∧ umask s' = umask s ∧
  (∃ m, fs_lookup s' p = Some (FsFile content m) ∧
        m = default (N.ldiff 438 (umask s)) (mode_of s p)) ∧
  (∀ q, q ≠ p → fs_lookup s' q = fs_lookup s q).
Proof.
  unfold write_text, mode_of.
  assert (Hparts : is_Some (fs_lookup s p) ∨ parts p ≠ [])
    by (unfold fs_lookup; destruct (parts p); eauto).
  destruct (fs_lookup s p) as [[m|c m]|] eqn:Hp; [done | |].
  - intros [= <-].
    assert (parts p ≠ []).
    { unfold fs_lookup in Hp. by destruct (parts p). }
    split_and!; [done | done | |].
    + exists m. by rewrite fs_lookup_put, decide_True.
    + intros q Hq. by rewrite fs_lookup_put, decide_False.
  - destruct (fs_lookup s (path_parent p)) as [[m|]|]; try done.
    intros [= <-].
    assert (parts p ≠ []) by by eapply fs_lookup_None_parts.
    split_and!; [done | done | |].
    + eexists. by rewrite fs_lookup_put, decide_True.
    + intros q Hq. by rewrite fs_lookup_put, decide_False.
Qed.

Lemma os_chmod_spec p mode s s' c m :
  fs_lookup s p = Some (FsFile c m) →
  os_chmod p mode s = Returned s' →
  umask s' = umask s ∧ fs_lookup s' p = Some (FsFile c mode) ∧
  (∀ q, q ≠ p → fs_lookup s' q = fs_lookup s q).
Proof.
  unfold os_chmod, fs_lookup at 1.
  destruct (parts p) as [|x l] eqn:Hparts; [done|]. intros ->.
  intros [= <-].
  assert (parts p ≠ []) by by rewrite Hparts.
  split_and!; [done | |].
  - by rewrite fs_lookup_put, decide_True.
  - intros q Hq. by rewrite fs_lookup_put, decide_False.
Qed.

Lemma os_chmod_file p mode s c m :
  fs_lookup s p = Some (FsFile c m) → ∃ s', os_chmod p mode s = Returned s'.
Proof.
  unfold os_chmod, fs_lookup.
  destruct (parts p) as [|x l]; [done|]. intros ->. eauto.
Qed.

Lemma bind_Returned {E A B} (x : outcome E A) (f : A → outcome E B) b :
  x ≫= f = Returned b → ∃ a, x = Returned a ∧ f a = Returned b.
Proof. destruct x as [a|e]; [by exists a | done]. Qed.




Lemma materialize_loop_app base pre : ∀ post s s',
  materialize_loop base (pre ++ post) s = Returned s' →
  ∃ s1, materialize_loop base pre s = Returned s1 ∧
        materialize_loop base post s1 = Returned s'.
Proof.
  induction pre as [|e pre IH]; intros post s s'; cbn [app materialize_loop].
  - eauto.
  - intros (s0 & -> & (s1 & ? & ?)%IH)%bind_Returned. by exists s1.
Qed.

(** ** Properties of the Materializer *)



(** ** More on the Splitter *)

Lemma split_go_cur fuel : ∀ bol cur s,
  split_go fuel bol cur s =
  match split_go fuel bol [] s with
  | x0 :: r => (cur ++ x0) :: r
  | [] => []
  end.
Proof.
  induction fuel as [|fuel IH]; intros bol cur s; simpl; [done|].
  destruct (match_sep bol s) as [[g rest]|].
  - by rewrite (right_id_L [] (++)).
  - destruct s as [|x s]; [by rewrite (right_id_L [] (++))|].
    rewrite (IH _ (cur ++ [x])), (IH _ [x]).
    destruct (split_go fuel (x =? nl) [] s); [done|].
    by rewrite <- (assoc_L (++)).
Qed.

(** X1: a document without a separator line, the empty document among
    them, parses to the empty mapping. *)
Theorem no_separator_empty_mapping content :
  sep_free content → _parse_spec_file content = [].
Proof.
  intros Hfree. apply (parse_of_sections content content []).
  rewrite re_split_splits, splits_pass_end; [done|].
  by apply Forall_forall.
Qed.

Lemma no_separator_empty_mapping_witness :
  sep_free doc_x1 ∧ _parse_spec_file doc_x1 = [].
Proof.
  assert (H : sep_free doc_x1) by (apply (bool_decide_unpack _); by vm_compute).
  split; [done|]. exact (no_separator_empty_mapping doc_x1 H).
Defined.

(** X2: [re.split] gives an odd number of sections, so the test
    [i + 1 < len(sections)] of the loop holds at every index the loop
    visits: no separator is ever passed over. *)
Theorem loop_guard_always_holds content :
  Nat.Odd (length (re_split content)) ∧
  Forall (λ i, (i + 1 <? length (re_split content))%nat = true)
         (py_range 1 (length (re_split content)) 2).
Proof.
  split.
  - destruct (parse_as_pairs content) as (x0 & ps & -> & _).
    exists (length ps). simpl. rewrite length_flat_pairs. lia.
  - apply Forall_forall. intros i Hi.
    destruct (sections_at content i Hi)
      as (x0 & ps & m & g & c & Hs & Hm & Hps & Hg & Hc & Hlt).
    by apply Nat.ltb_lt.
Qed.

(** X4: the text before the first separator line is discarded: a preamble
    without a separator line, ended by a newline, does not change what the
    document parses to. *)
Theorem preamble_discarded pre doc :
  sep_free pre →
  _parse_spec_file (pre ++ nl :: doc) = _parse_spec_file doc.
Proof.
  intros Hfree.
  destruct (parse_as_pairs doc) as (x0 & ps & Hs & ->).
  apply (parse_of_sections _ ((pre ++ [nl]) ++ x0) ps).
  rewrite re_split_splits, splits_pass by by apply Forall_forall.
  unfold splits. rewrite split_go_cur.
  change (split_go (S (length doc)) true [] doc) with (re_split doc).
  by rewrite Hs.
Qed.

Lemma preamble_discarded_witness :
  sep_free doc_x1 ∧
  _parse_spec_file (doc_x1 ++ nl :: doc_c8) = _parse_spec_file doc_c8.
Proof.
  assert (H : sep_free doc_x1) by (apply (bool_decide_unpack _); by vm_compute).
  split; [done|]. exact (preamble_discarded doc_x1 doc_c8 H).
Defined.

Lemma store_keys ps : ∀ acc k,
  k ∈ dict_keys (foldl store acc ps)
  ↔ k ∈ dict_keys acc ∨ ∃ p, p ∈ ps ∧ strip p.1 = k.
Proof.
  induction ps as [|p ps IH]; intros acc k; simpl.
  - split; [by left | intros [?|(? & ?%elem_of_nil & _)]; done].
  - rewrite IH. unfold store. rewrite dict_keys_set. split.
    + intros [[->|?]|(q & ? & ?)]; [right; exists p | by left | right; exists q];
        set_solver.
    + intros [?|(q & [->|?]%elem_of_cons & ?)];
        [by left; right | by left; left | right; by exists q].
Qed.

Lemma store_NoDup ps : ∀ acc,
  NoDup (dict_keys acc) → NoDup (dict_keys (foldl store acc ps)).
Proof.
  induction ps as [|p ps IH]; intros acc Hacc; simpl; [done|].
  apply IH. by apply dict_set_NoDup.
Qed.

(** X3: the paths of the mapping are the trimmed paths of the separator
    lines of the document, each of them once. *)
Theorem parsed_keys content :
  NoDup (dict_keys (_parse_spec_file content)) ∧
  ∀ k, k ∈ dict_keys (_parse_spec_file content)
       ↔ ∃ i, i ∈ py_range 1 (length (re_split content)) 2 ∧
              strip (re_split content !!! i) = k.
Proof.
  split.
  - destruct (parse_as_pairs content) as (x0 & ps & _ & ->).
    apply store_NoDup. constructor.
  - intros k. split.
    + destruct (parse_as_pairs content) as (x0 & ps & Hs & ->).
      rewrite store_keys.
      intros [?%elem_of_nil|(p & [m Hm]%list_elem_of_lookup & Hk)]; [done|].
      destruct (lookup_flat_pairs x0 ps m p Hm) as [H1 _].
      exists (2 * m + 1)%nat. rewrite Hs. split.
      * apply elem_of_py_range_odd. exists m. split; [done|].
        simpl. rewrite length_flat_pairs. apply lookup_lt_Some in Hm. lia.
      * by rewrite (list_lookup_total_correct _ _ _ H1).
    + intros (i & Hi & Hk).
      destruct (sections_at content i Hi)
        as (x0 & ps & m & g & c & Hs & Hm & Hps & Hg & Hc & Hlt).
      rewrite (parse_of_sections _ _ _ Hs), store_keys. right.
      exists (g, c). split; [by eapply list_elem_of_lookup_2|].
      simpl. by rewrite <- Hg.
Qed.

Lemma replicate_sep_inj (c d : N) n n' (x y : list N) :
  c ≠ d → replicate n c ++ d :: x = replicate n' c ++ d :: y →
  n = n' ∧ x = y.
Proof.
  intros Hcd Heq.
  apply first_sep_unique in Heq as [Hr ->].
  - split; [|done]. apply (f_equal length) in Hr.
    by rewrite !length_replicate in Hr.
  - by intros [? _]%elem_of_replicate.
  - by intros [? _]%elem_of_replicate.
Qed.

(** A separator line is read in one way only. *)
Lemma sep_line_inj n m g n' m' g' :
  sep_line n m g = sep_line n' m' g' → n = n' ∧ m = m' ∧ g = g'.
Proof.
  unfold sep_line. intros [= Heq]. cbn [app] in Heq.
  apply replicate_sep_inj in Heq as [-> Heq]; [|done].
  apply (f_equal reverse) in Heq.
  rewrite !reverse_app, !reverse_cons, !reverse_replicate in Heq.
  rewrite <- !(assoc_L (++)) in Heq. cbn [app] in Heq.
  apply replicate_sep_inj in Heq as [-> Heq]; [|done].
  by apply (inj reverse) in Heq as ->.
Qed.

(** X5: ten equals signs on each side are needed and are enough: a line of
    the shape of a separator, around a text without a newline, matches the
    pattern exactly when both runs have ten signs or more and the text is
    not empty, and then the group is that text. *)
Theorem separator_needs_ten n m g :
  nl ∉ g →
  match_sep true (sep_line n m g)
  = if decide ((10 ≤ n)%nat ∧ (10 ≤ m)%nat ∧ g ≠ []) then Some (g, [])
    else None.
Proof.
  intros Hnl. case_decide as Hok.
  - destruct Hok as (Hn & Hm & Hg).
    rewrite <- (right_id_L [] (++) (sep_line n m g)) at 1.
    by apply match_sep_complete.
  - destruct (match_sep true (sep_line n m g)) as [[g' rest]|] eqn:Hmatch;
      [exfalso|done].
    pose proof Hmatch as Hrest.
    apply match_sep_whole_line in Hrest as ->;
      [|by apply nl_not_in_sep_line].
    apply match_sep_sound in Hmatch
      as (_ & n' & m' & Heq & Hn & Hm & Hg & _).
    rewrite (right_id_L [] (++)) in Heq.
    apply sep_line_inj in Heq as (-> & -> & ->). by apply Hok.
Qed.

Lemma separator_needs_ten_witness :
  (nl ∉ py "a.txt") ∧
  match_sep true (sep_line 10 10 (py "a.txt")) = Some (py "a.txt", []) ∧
  match_sep true (sep_line 9 20 (py "a.txt")) = None ∧
  match_sep true (sep_line 20 9 (py "a.txt")) = None.
Proof.
  assert (H : nl ∉ py "a.txt") by (apply (bool_decide_unpack _); by vm_compute).
  split_and!; [done | ..].
  - exact (separator_needs_ten 10 10 (py "a.txt") H).
  - exact (separator_needs_ten 9 20 (py "a.txt") H).
  - exact (separator_needs_ten 20 9 (py "a.txt") H).
Defined.

(** ** More on the Composer and on the round trip *)

Lemma splits_doc_of_plain items : ∀ cur,
  Forall plain_entry items →
  splits true cur (doc_of items) = cur :: flat_pairs (padded items).
Proof.
  induction items as [|[p c] items IH]; intros cur Hv.
  - by rewrite splits_unfold.
  - apply Forall_cons in Hv as [[(Hp & Hnl & _) Hfree] Hv].
    simpl in *. rewrite doc_of_cons.
    rewrite splits_line by (by apply nl_not_in_sep_line).
    rewrite match_separator by done.
    change (flat_pairs ((p, ?x) :: ?l)) with (p :: x :: flat_pairs l).
    f_equal. f_equal.
    rewrite splits_pass by (by apply Forall_forall).
    destruct items as [|e items].
    + by rewrite splits_unfold.
    + rewrite splits_no_match by done. rewrite N.eqb_refl.
      rewrite IH by done. by rewrite <- !(assoc_L (++)).
Qed.

Lemma clean_content_surrounded w1 c w2 :
  all_space w1 → all_space w2 →
  clean_content (w1 ++ c ++ w2) = clean_content c.
Proof.
  intros H1 H2. unfold clean_content. by rewrite strip_surrounded.
Qed.

Lemma store_padded_plain items : ∀ acc,
  Forall plain_entry items →
  foldl store acc (padded items)
  = foldl (λ d e, dict_set ((λ e, (e.1, clean_content e.2)) e).1
                           ((λ e, (e.1, clean_content e.2)) e).2 d) acc items.
Proof.
  induction items as [|[p c] items IH]; intros acc Hv; [done|].
  apply Forall_cons in Hv as [[(_ & _ & Hp) _] Hv]. simpl in *.
  rewrite IH by done. f_equal. unfold store. simpl. rewrite Hp. f_equal.
  apply (clean_content_surrounded [nl] c (nl :: _)); [apply all_space_nl|].
  destruct items; by repeat constructor.
Qed.

Lemma parse_generate_plain files :
  NoDup (dict_keys files) → Forall plain_entry files →
  _parse_spec_file (_generate_spec_content files)
  = (λ e, (e.1, clean_content e.2)) <$> sorted files.
Proof.
  intros Hnd Hv. rewrite generate_doc_of.
  assert (Hv' : Forall plain_entry (sorted files))
    by by rewrite sorted_Permutation.
  rewrite (parse_of_sections _ [] (padded (sorted files)))
    by (rewrite re_split_splits; by apply splits_doc_of_plain).
  rewrite store_padded_plain by done.
  rewrite (store_fresh (λ e, (e.1, clean_content e.2))); [done | done |].
  unfold dict_keys in *. by rewrite sorted_Permutation.
Qed.


(** X6: what the round trip does to any content without a separator
    line: the Splitter gives back the entries the Composer wrote, in the
    order of their paths, each content trimmed and, when it is fenced by
    triple quotes, un-wrapped. *)
Theorem roundtrip_cleans files :
  NoDup (dict_keys files) → Forall plain_entry files →
  _parse_spec_file (_generate_spec_content files)
  = (λ e, (e.1, clean_content e.2)) <$> sorted files.
Proof. apply parse_generate_plain. Qed.

Lemma roundtrip_cleans_witness :
  NoDup (dict_keys files_x7) ∧ Forall plain_entry files_x7 ∧
  _parse_spec_file (_generate_spec_content files_x7)
  = [(py "doc/quote.txt", py "fenced"); (py "run.sh", py "echo hi")].
Proof.
  assert (H1 : NoDup (dict_keys files_x7))
    by (apply (bool_decide_unpack _); by vm_compute).
  assert (H2 : Forall plain_entry files_x7)
    by (apply (bool_decide_unpack _); by vm_compute).
  split_and!; [done | done |].
  rewrite (roundtrip_cleans files_x7 H1 H2). by vm_compute.
Defined.

Lemma doc_of_last items : items ≠ [] → last (doc_of items) = Some nl.
Proof.
  induction items as [|[p c] items IH]; [done|]. intros _.
  rewrite doc_of_cons. destruct items as [|e items].
  - apply last_Some. exists (separator p ++ nl :: c).
    by rewrite <- (assoc_L (++)).
  - apply last_Some in IH as [l Hl]; [|done]. rewrite Hl.
    apply last_Some. exists (separator p ++ nl :: c ++ nl :: nl :: l).
    rewrite <- (assoc_L (++)). cbn [app]. by rewrite <- (assoc_L (++)).
Qed.

(** X7: the document of the empty mapping is empty, and it is the only
    empty one: every other document starts with the separator line of its
    first path and ends with a newline. *)
Theorem composed_document_shape files :
  (_generate_spec_content files = [] ↔ files = []) ∧
  (files ≠ [] →
   (∃ e, e ∈ files ∧
         startswith (_generate_spec_content files) (separator e.1) = true) ∧
   last (_generate_spec_content files) = Some nl).
Proof.
  rewrite generate_doc_of.
  assert (Hnil : sorted files = [] ↔ files = []).
  { split; [|by intros ->].
    intros H. apply Permutation_nil_r. rewrite <- H. symmetry.
    apply sorted_Permutation. }
  split.
  - rewrite <- Hnil. destruct (sorted files) as [|[p c] l]; [done|].
    rewrite doc_of_cons. split; [|done]. by destruct (separator p).
  - intros Hne. pose proof (sorted_Permutation files) as Hp.
    destruct (sorted files) as [|[p c] l]; [destruct Hne; by apply Hnil|].
    split; [|by apply doc_of_last].
    exists (p, c). split.
    + rewrite <- Hp. set_solver.
    + rewrite doc_of_cons. apply startswith_app.
Qed.

(** X8: the Composer loses nothing of a mapping that the round trip
    gives back: two such mappings with the same document are the same
    mapping. *)
Theorem composer_lossless d1 d2 :
  NoDup (dict_keys d1) → NoDup (dict_keys d2) →
  Forall valid_entry d1 → Forall valid_entry d2 →
  _generate_spec_content d1 = _generate_spec_content d2 →
  dict_eq d1 d2.
Proof.
  intros Hn1 Hn2 Hv1 Hv2 Heq.
  apply (f_equal _parse_spec_file) in Heq.
  rewrite !parse_generate in Heq by done.
  apply dict_eq_Permutation; [done|].
  by rewrite <- (sorted_Permutation d1), Heq, sorted_Permutation.
Qed.

Lemma composer_lossless_witness :
  NoDup (dict_keys files_x10) ∧ NoDup (dict_keys (reverse files_x10)) ∧
  Forall valid_entry files_x10 ∧ Forall valid_entry (reverse files_x10) ∧
  _generate_spec_content files_x10
  = _generate_spec_content (reverse files_x10) ∧
  dict_eq files_x10 (reverse files_x10).
Proof.
  assert (H1 : NoDup (dict_keys files_x10))
    by (apply (bool_decide_unpack _); by vm_compute).
  assert (H2 : NoDup (dict_keys (reverse files_x10)))
    by (apply (bool_decide_unpack _); by vm_compute).
  assert (H3 : Forall valid_entry files_x10)
    by (apply (bool_decide_unpack _); by vm_compute).
  assert (H4 : Forall valid_entry (reverse files_x10))
    by (apply (bool_decide_unpack _); by vm_compute).
  assert (H5 : _generate_spec_content files_x10
               = _generate_spec_content (reverse files_x10)) by by vm_compute.
  split_and!; [done.. |].
  exact (composer_lossless _ _ H1 H2 H3 H4 H5).
Defined.

(** ** More on the Scanner *)

Lemma env_example_skipped_witness :
  path_name (mkPath [] [py "any"; py "where"; py ".env.example"])
  = env_example ∧
  should_skip (mkPath [] [py "any"; py "where"; py ".env.example"]) = true.
Proof.
  split; [done|].
  exact (env_example_skipped
           (mkPath [] [py "any"; py "where"; py ".env.example"]) eq_refl).
Defined.

Lemma startswith_app_l s t p :
  startswith s p = true → startswith (s ++ t) p = true.
Proof.
  intros [u ->]%startswith_spec. rewrite <- (assoc_L (++)).
  apply startswith_app.
Qed.

Lemma contains_app_l p s t :
  contains p s = true → contains p (s ++ t) = true.
Proof.
  induction s as [|x s IH]; cbn [app contains].
  - rewrite orb_false_r. intros H. destruct p; [|done]. by destruct t.
  - intros [H|H]%orb_true_iff.
    + pose proof (startswith_app_l (x :: s) t p H) as H'.
      cbn [app] in H'. by rewrite H'.
    + rewrite IH by done. apply orb_true_r.
Qed.

Lemma join_app sep a b :
  a ≠ [] → b ≠ [] → join sep (a ++ b) = join sep a ++ sep ++ join sep b.
Proof.
  intros Ha Hb. induction a as [|x a IH]; [done|].
  destruct a as [|y a].
  - simpl. by destruct b.
  - cbn [app] in *. rewrite !join_cons2, IH by done.
    by rewrite <- !(assoc_L (++)).
Qed.

(** The path of what is below a directory starts with the path of the
    directory, unless that one is the current directory. *)
Lemma path_str_below pp names :
  parts pp ≠ [] → names ≠ [] →
  path_str (mkPath (root pp) (parts pp ++ names))
  = path_str pp ++ [slash] ++ join [slash] names.
Proof.
  intros Hp Hn. rewrite !path_str_parts by (simpl; by destruct (parts pp)).
  simpl. rewrite join_app by done. by rewrite <- !(assoc_L (++)).
Qed.

Lemma should_skip_pattern fp pat :
  pat ∈ skip_patterns → contains pat (path_str fp) = true →
  should_skip fp = true.
Proof.
  intros Hpat Hc. unfold should_skip. apply existsb_exists.
  exists pat. split; [by apply list_elem_of_In | by rewrite Hc].
Qed.

Lemma scan_loop_all_skipped pp es : ∀ st,
  (∀ e, e ∈ es → should_skip e.1 = true) → scan_loop pp st es = Returned st.
Proof.
  induction es as [|[fp n] es IH]; intros [files out] Hskip; [done|].
  cbn [scan_loop]. rewrite scan_step_cases.
  assert (Hfp : should_skip fp = true) by (apply (Hskip (fp, n)); set_solver).
  rewrite Hfp, andb_false_r.
  apply IH. intros e He. apply Hskip. set_solver.
Qed.

(** X10: the patterns are looked for in the whole path, the scanned
    directory included: when the path of the project directory itself
    holds one of them, every file is skipped and the mapping is empty,
    whatever the directory holds. *)
Theorem scan_of_matching_directory_is_empty project_dir tree pat :
  pat ∈ skip_patterns →
  parts (parse_path project_dir) ≠ [] →
  contains pat (path_str (parse_path project_dir)) = true →
  _scan_directory project_dir tree = Returned ([], []).
Proof.
  intros Hpat Hparts Hc. unfold _scan_directory.
  apply scan_loop_all_skipped. intros [fp n] Hin. simpl.
  destruct (rglob_below _ _ _ _ Hin) as (names & Hn & -> & _).
  apply (should_skip_pattern _ pat Hpat).
  rewrite path_str_below by done. by apply contains_app_l.
Qed.

Lemma scan_of_matching_directory_is_empty_witness :
  (py "venv" ∈ skip_patterns) ∧
  parts (parse_path (py "work/my-venv-tools")) ≠ [] ∧
  contains (py "venv") (path_str (parse_path (py "work/my-venv-tools"))) = true ∧
  _scan_directory (py "work/my-venv-tools") tree_x12 = Returned ([], []).
Proof.
  assert (H1 : py "venv" ∈ skip_patterns)
    by (apply (bool_decide_unpack _); by vm_compute).
  assert (H2 : parts (parse_path (py "work/my-venv-tools")) ≠ []) by done.
  split_and!; [done | done | done |].
  exact (scan_of_matching_directory_is_empty _ tree_x12 _ H1 H2 eq_refl).
Defined.

Global Instance selected_Permutation pp :
  Proper ((≡ₚ) ==> (≡ₚ)) (selected pp).
Proof. intros es1 es2 Hp. unfold selected. by rewrite Hp. Qed.

(** X11: the document of a directory does not depend on the order in
    which the directory is listed: when no two files that are read have
    the same relative path, the scan of the entries in any other order
    gives a mapping with the same document. *)
Theorem packaging_ignores_listing_order project_dir tree entries files out
    files' out' :
  entries ≡ₚ rglob (parse_path project_dir) tree →
  NoDup (dict_keys (selected (parse_path project_dir) entries)) →
  _scan_directory project_dir tree = Returned (files, out) →
  scan_loop (parse_path project_dir) ([], []) entries
    = Returned (files', out') →
  _generate_spec_content files' = _generate_spec_content files.
Proof.
  unfold _scan_directory. set (pp := parse_path project_dir).
  intros Hperm Hnd Hscan Hscan'.
  apply scan_loop_files in Hscan, Hscan'.
  rewrite store_fresh in Hscan, Hscan'; try done.
  - rewrite list_fmap_id in Hscan, Hscan'. subst files files'.
    rewrite !generate_doc_of. f_equal. apply sorted_unique.
    by rewrite Hperm.
  - simpl. unfold dict_keys in *. by rewrite <- Hperm.
Qed.

Lemma packaging_ignores_listing_order_witness :
  entries_x14 ≡ₚ rglob (parse_path (py "proj")) tree_x12 ∧
  NoDup (dict_keys (selected (parse_path (py "proj")) entries_x14)) ∧
  _scan_directory (py "proj") tree_x12
  = Returned ([(py "main.py", py "print(1)"); (py "docs/index.md", py "# Title")],
              [Added (py "main.py"); Added (py "docs/index.md")]) ∧
  scan_loop (parse_path (py "proj")) ([], []) entries_x14
  = Returned ([(py "docs/index.md", py "# Title"); (py "main.py", py "print(1)")],
              [Added (py "docs/index.md"); Added (py "main.py")]) ∧
  _generate_spec_content
    [(py "docs/index.md", py "# Title"); (py "main.py", py "print(1)")]
  = _generate_spec_content
    [(py "main.py", py "print(1)"); (py "docs/index.md", py "# Title")].
Proof.
  assert (H1 : entries_x14 ≡ₚ rglob (parse_path (py "proj")) tree_x12).
  { unfold entries_x14. by rewrite reverse_Permutation. }
  assert (H2 : NoDup (dict_keys (selected (parse_path (py "proj")) entries_x14)))
    by (apply (bool_decide_unpack _); by vm_compute).
  assert (H3 : _scan_directory (py "proj") tree_x12
  = Returned ([(py "main.py", py "print(1)"); (py "docs/index.md", py "# Title")],
              [Added (py "main.py"); Added (py "docs/index.md")]))
    by by vm_compute.
  assert (H4 : scan_loop (parse_path (py "proj")) ([], []) entries_x14
  = Returned ([(py "docs/index.md", py "# Title"); (py "main.py", py "print(1)")],
              [Added (py "docs/index.md"); Added (py "main.py")]))
    by by vm_compute.
  split_and!; [done.. |].
  exact (packaging_ignores_listing_order _ _ _ _ _ _ _ H1 H2 H3 H4).
Defined.

(** ** More on the Materializer *)

Lemma only_new_dirs_lookup rt len s s' q n :
  only_new_dirs rt len s s' → fs_lookup s q = Some n → fs_lookup s' q = Some n.
Proof.
  intros [_ H] Hq. destruct (H q) as [->|(Hn & _)]; [done | congruence].
Qed.

(** One entry: its file holds the content, and whatever else was there is
    still there. *)
Lemma materialize_entry_lookup base filepath content s s' :
  materialize_entry base (filepath, content) s = Returned s' →
  (∃ m, fs_lookup s' (path_join base filepath) = Some (FsFile content m)) ∧
  (∀ q n, q ≠ path_join base filepath →
          fs_lookup s q = Some n → fs_lookup s' q = Some n).
Proof.
  unfold materialize_entry. set (target := path_join base filepath).
  intros (s1 & Hmk & (s2 & Hwr & Hch)%bind_Returned)%bind_Returned.
  apply write_text_spec in Hwr as (Hparts & Hu2 & (m & Hfile & Hm) & Hframe).
  apply path_mkdir_new_dirs in Hmk.
  assert (Hother : ∀ q n, q ≠ target → fs_lookup s q = Some n →
                          fs_lookup s2 q = Some n).
  { intros q n Hq Hn. rewrite (Hframe q Hq).
    by eapply only_new_dirs_lookup. }
  destruct (endswith filepath (py ".sh")).
  - apply (os_chmod_spec _ _ _ _ _ _ Hfile) in Hch as (_ & Hfile' & Hframe').
    split; [by eauto|]. intros q n Hq Hn. rewrite (Hframe' q Hq).
    by apply Hother.
  - injection Hch as <-. split; [by eauto | done].
Qed.

Lemma materialize_loop_keeps base items : ∀ s s' q n,
  materialize_loop base items s = Returned s' →
  (∀ e, e ∈ items → path_join base e.1 ≠ q) →
  fs_lookup s q = Some n → fs_lookup s' q = Some n.
Proof.
  induction items as [|[filepath content] items IH]; intros s s' q n;
    cbn [materialize_loop].
  - by intros [= <-].
  - intros (s1 & Hentry & Hrest)%bind_Returned Hq Hn.
    apply (IH _ _ _ _ Hrest); [intros e He; apply Hq; set_solver|].
    apply materialize_entry_lookup in Hentry as [_ Hframe].
    apply Hframe; [|done]. intros ->. by apply (Hq (filepath, content)); set_solver.
Qed.

(** X12: when the Materializer returns, the keys being relative paths and
    no path having a [..] component, the file of an entry holds the
    content of the entry, unless a later entry is written to the same
    file: of the entries of one file, the last one decides. *)
Theorem written_content_kept files output_dir s s' pre filepath content post :
  plain_path (parse_path output_dir) →
  Forall (λ e, plain_key e.1) files →
  _create_directory_structure files output_dir s = Returned s' →
  files = pre ++ (filepath, content) :: post →
  (∀ e, e ∈ post →
        path_join (parse_path output_dir) e.1
        ≠ path_join (parse_path output_dir) filepath) →
  ∃ m, fs_lookup s' (path_join (parse_path output_dir) filepath)
       = Some (FsFile content m).
Proof.
  unfold _create_directory_structure. intros _ _ Hrun -> Hlater.
  apply materialize_loop_app in Hrun as (s1 & _ & Hrun).
  cbn [materialize_loop] in Hrun.
  apply bind_Returned in Hrun as (s2 & Hentry & Hpost).
  apply materialize_entry_lookup in Hentry as [[m Hm] _].
  exists m. by apply (materialize_loop_keeps _ _ _ _ _ _ Hpost).
Qed.

Lemma written_content_kept_witness :
  plain_path (parse_path (py "out")) ∧
  Forall (λ e, plain_key e.1) files_x15 ∧
  _create_directory_structure files_x15 (py "out") fs_c9 = Returned fs_x15_end ∧
  files_x15 = [(py "notes.txt", py "first"); (py "bin/run.sh", py "echo")]
              ++ (py "./notes.txt", py "second") :: [] ∧
  fs_lookup fs_x15_end (parse_path (py "out/notes.txt"))
  = Some (FsFile (py "second") 420) ∧
  ∃ m, fs_lookup fs_x15_end (path_join (parse_path (py "out")) (py "bin/run.sh"))
       = Some (FsFile (py "echo") m).
Proof.
  assert (H1 : _create_directory_structure files_x15 (py "out") fs_c9
               = Returned fs_x15_end) by by vm_compute.
  assert (H2 : files_x15 = [(py "notes.txt", py "first")]
              ++ (py "bin/run.sh", py "echo")
              :: [(py "./notes.txt", py "second")]) by done.
  assert (Hd : plain_path (parse_path (py "out")))
    by (apply (bool_decide_unpack _); by vm_compute).
  assert (Hk : Forall (λ e, plain_key e.1) files_x15)
    by (apply (bool_decide_unpack _); by vm_compute).
  split_and!; [done | done | done | done | by vm_compute |].
  apply (written_content_kept _ _ _ _ _ _ _ _ Hd Hk H1 H2).
  intros e ->%list_elem_of_singleton. by vm_compute.
Defined.

(** X13: what the mapping does not name is left alone, the keys being
    relative paths and no path having a [..] component: a file or a
    directory that was there, on the side of the output directory
    (relative like it, or from the same root), and that is the file of no
    entry is there when the Materializer returns, with its content and its
    permission bits. *)
Theorem other_paths_untouched files output_dir s s' q n :
  plain_path (parse_path output_dir) →
  Forall (λ e, plain_key e.1) files →
  root q = root (parse_path output_dir) → plain_path q →
  _create_directory_structure files output_dir s = Returned s' →
  (∀ e, e ∈ files → path_join (parse_path output_dir) e.1 ≠ q) →
  fs_lookup s q = Some n → fs_lookup s' q = Some n.
Proof. intros _ _ _ _. apply materialize_loop_keeps. Qed.

Lemma other_paths_untouched_witness :
  plain_path (parse_path (py "out")) ∧
  Forall (λ e, plain_key e.1) files_c9 ∧
  root (parse_path (py "out/keep.txt")) = root (parse_path (py "out")) ∧
  plain_path (parse_path (py "out/keep.txt")) ∧
  _create_directory_structure files_c9 (py "out") fs_x18 = Returned fs_x18_end ∧
  (∀ e, e ∈ files_c9 →
        path_join (parse_path (py "out")) e.1 ≠ parse_path (py "out/keep.txt")) ∧
  fs_lookup fs_x18 (parse_path (py "out/keep.txt"))
  = Some (FsFile (py "old") 384) ∧
  fs_lookup fs_x18_end (parse_path (py "out/keep.txt"))
  = Some (FsFile (py "old") 384).
Proof.
  assert (H1 : _create_directory_structure files_c9 (py "out") fs_x18
               = Returned fs_x18_end) by by vm_compute.
  assert (H2 : ∀ e, e ∈ files_c9 →
    path_join (parse_path (py "out")) e.1 ≠ parse_path (py "out/keep.txt")).
  { intros e He. unfold files_c9 in He.
    repeat (apply elem_of_cons in He as [->|He]; [by vm_compute|]).
    by apply elem_of_nil in He. }
  assert (H3 : fs_lookup fs_x18 (parse_path (py "out/keep.txt"))
               = Some (FsFile (py "old") 384)) by by vm_compute.
  assert (Hd : plain_path (parse_path (py "out")))
    by (apply (bool_decide_unpack _); by vm_compute).
  assert (Hk : Forall (λ e, plain_key e.1) files_c9)
    by (apply (bool_decide_unpack _); by vm_compute).
  assert (Hq : plain_path (parse_path (py "out/keep.txt")))
    by (apply (bool_decide_unpack _); by vm_compute).
  split_and!; [done | done | done | done | done | done | done |].
  exact (other_paths_untouched files_c9 (py "out") fs_x18 fs_x18_end
           (parse_path (py "out/keep.txt")) _ Hd Hk eq_refl Hq H1 H2 H3).
Defined.

Lemma parse_path_absolute s :
  startswith s [slash] = true → root (parse_path s) ≠ [].
Proof.
  destruct s as [|c s]; [done|]. simpl.
  destruct (N.eqb_spec c slash) as [->|]; [|done]. intros _.
  unfold parse_path, slash. repeat case_match; by simplify_eq/=.
Qed.

Lemma path_join_absolute base s :
  startswith s [slash] = true → path_join base s = parse_path s.
Proof.
  intros H%parse_path_absolute. unfold path_join.
  by destruct (root (parse_path s)).
Qed.

(** X14: a path of the mapping that begins with a slash is not put below
    the output directory: it is written where it says, whatever the
    output directory is. *)
Theorem absolute_paths_ignore_output_dir files dir1 dir2 s :
  Forall (λ e, startswith e.1 [slash] = true) files →
  _create_directory_structure files dir1 s
  = _create_directory_structure files dir2 s.
Proof.
  unfold _create_directory_structure. intros Habs. revert s.
  induction Habs as [|[filepath content] items Hf _ IH]; intros s; [done|].
  cbn [materialize_loop]. simpl in Hf.
  assert (Hentry : materialize_entry (parse_path dir1) (filepath, content) s
                   = materialize_entry (parse_path dir2) (filepath, content) s).
  { unfold materialize_entry. by rewrite !(path_join_absolute _ filepath Hf). }
  rewrite Hentry.
  destruct (materialize_entry (parse_path dir2) (filepath, content) s);
    [apply IH | done].
Qed.

Lemma absolute_paths_ignore_output_dir_witness :
  Forall (λ e, startswith e.1 [slash] = true) files_x16 ∧
  (∃ s', _create_directory_structure files_x16 (py "out") fs_c9 = Returned s' ∧
         fs_lookup s' (parse_path (py "/etc/cron.d/job"))
         = Some (FsFile (py "* * * * *") 420)) ∧
  _create_directory_structure files_x16 (py "out") fs_c9
  = _create_directory_structure files_x16 (py "sandbox/deep") fs_c9.
Proof.
  assert (H : Forall (λ e, startswith e.1 [slash] = true) files_x16)
    by (apply (bool_decide_unpack _); by vm_compute).
  split_and!; [done | | exact (absolute_paths_ignore_output_dir _ _ _ _ H)].
  destruct (_create_directory_structure files_x16 (py "out") fs_c9)
    as [s'|] eqn:Hrun; [|by vm_compute in Hrun].
  exists s'. split; [done|]. vm_compute in Hrun. injection Hrun as <-.
  by vm_compute.
Defined.

(** ** The two commands *)

Lemma universal_newlines_id s : cr ∉ s → universal_newlines s = s.
Proof.
  induction s as [|c s IH]; [done|].
  intros [Hc Hs]%not_elem_of_cons. cbn [universal_newlines].
  destruct (N.eqb_spec c cr); [congruence|]. by rewrite IH.
Qed.

(** What is written to a file is what is read from it, but for the
    carriage returns. *)
Lemma write_file_read_back name content s s' :
  write_file name content s = Returned s' →
  read_file name s' = Returned (universal_newlines content).
Proof.
  unfold write_file, read_file.
  destruct (decide (name = [])); [done|].
  destruct (endswith name [slash]); [by repeat case_match|].
  intros (_ & _ & (m & -> & _) & _)%write_text_spec. done.
Qed.

Lemma dict_set_fold_NoDup (items : list (list N * list N)) : ∀ acc,
  NoDup (dict_keys acc) →
  NoDup (dict_keys (foldl (λ d e, dict_set (id e).1 (id e).2 d) acc items)).
Proof.
  induction items as [|e items IH]; intros acc Hacc; [done|].
  apply IH. by apply dict_set_NoDup.
Qed.

Lemma scan_NoDup project_dir tree files out :
  _scan_directory project_dir tree = Returned (files, out) →
  NoDup (dict_keys files).
Proof.
  intros ->%scan_loop_files. apply dict_set_fold_NoDup. constructor.
Qed.

(** X15: [defilify] on a spec file without a separator line writes
    nothing: it returns, and the file system is as it was. *)
Theorem defilify_without_separators spec_file output_dir s content :
  read_file spec_file s = Returned content → sep_free content →
  defilify spec_file output_dir s = Returned s.
Proof.
  intros Hread Hfree. unfold defilify. rewrite Hread. simpl.
  by rewrite (parse_of_sections content content [])
    by (rewrite re_split_splits, splits_pass_end;
        [done | by apply Forall_forall]).
Qed.

Lemma defilify_without_separators_witness :
  read_file (py "notes.spec") fs_x20 = Returned doc_x1 ∧ sep_free doc_x1 ∧
  defilify (py "notes.spec") (py "out") fs_x20 = Returned fs_x20.
Proof.
  assert (H1 : read_file (py "notes.spec") fs_x20 = Returned doc_x1)
    by by vm_compute.
  assert (H2 : sep_free doc_x1)
    by (apply (bool_decide_unpack _); by vm_compute).
  split_and!; [done | done |].
  exact (defilify_without_separators _ (py "out") _ _ H1 H2).
Defined.

(** X16: [defilify] on a spec file that holds the document the Composer
    writes for a mapping the round trip gives back does what the
    Materializer does on the entries of that mapping, by ascending path. *)
Theorem defilify_of_composed_document spec_file output_dir s files :
  NoDup (dict_keys files) → Forall valid_entry files →
  read_file spec_file s = Returned (_generate_spec_content files) →
  defilify spec_file output_dir s
  = _create_directory_structure (sorted files) output_dir s.
Proof.
  intros Hnd Hv Hread. unfold defilify. rewrite Hread. simpl.
  by rewrite parse_generate.
Qed.

(** X17: the file [filify] writes holds the document of the scanned
    mapping: it reads back as that document, carriage returns turned into
    newlines, and as the document itself when it has no carriage return. *)
Theorem filify_document_read_back project_dir output_file tree s s' :
  filify project_dir output_file tree s = Returned s' →
  ∃ files out,
    _scan_directory project_dir tree = Returned (files, out) ∧
    read_file output_file s'
    = Returned (universal_newlines (_generate_spec_content files)) ∧
    (cr ∉ _generate_spec_content files →
     read_file output_file s' = Returned (_generate_spec_content files)).
Proof.
  unfold filify.
  destruct (_scan_directory project_dir tree) as [[files out]|] eqn:Hscan;
    [|done].
  destruct (write_file _ _ s) as [s1|] eqn:Hwrite; [|done].
  intros [= <-]. exists files, out.
  apply write_file_read_back in Hwrite. split_and!; [done | done |].
  intros Hcr. by rewrite Hwrite, universal_newlines_id.
Qed.

(** X18: packaging, then reading and parsing the package, gives the
    scanned mapping with its contents cleaned: when the paths of the files
    read are not empty, on one line and trimmed, and no content has a
    separator line or a carriage return. *)
Theorem filify_then_parse project_dir output_file tree s s' files out :
  filify project_dir output_file tree s = Returned s' →
  _scan_directory project_dir tree = Returned (files, out) →
  Forall plain_entry files → cr ∉ _generate_spec_content files →
  ∃ content,
    read_file output_file s' = Returned content ∧
    _parse_spec_file content
    = (λ e, (e.1, clean_content e.2)) <$> sorted files.
Proof.
  intros Hrun Hscan Hplain Hcr. unfold filify in Hrun. rewrite Hscan in Hrun.
  destruct (write_file _ _ s) as [s1|] eqn:Hwrite; [|done].
  injection Hrun as <-. apply write_file_read_back in Hwrite.
  exists (_generate_spec_content files). split.
  - by rewrite Hwrite, universal_newlines_id.
  - apply parse_generate_plain; [by eapply scan_NoDup | done].
Qed.

Lemma filify_then_parse_witness :
  filify (py "proj") (py "project.spec") tree_x21 fs_c9 = Returned fs_x21_end ∧
  _scan_directory (py "proj") tree_x21
  = Returned ([(py "run.sh", [nl] ++ py "echo hi" ++ [nl]);
               (py "docs/index.md", py "# Title" ++ [nl])],
              [Added (py "run.sh"); SkippedBinary (py "logo.png");
               Added (py "docs/index.md")]) ∧
  ∃ content,
    read_file (py "project.spec") fs_x21_end = Returned content ∧
    _parse_spec_file content
    = [(py "docs/index.md", py "# Title"); (py "run.sh", py "echo hi")].
Proof.
  assert (H1 : filify (py "proj") (py "project.spec") tree_x21 fs_c9
               = Returned fs_x21_end) by by vm_compute.
  assert (H2 : _scan_directory (py "proj") tree_x21
  = Returned ([(py "run.sh", [nl] ++ py "echo hi" ++ [nl]);
               (py "docs/index.md", py "# Title" ++ [nl])],
              [Added (py "run.sh"); SkippedBinary (py "logo.png");
               Added (py "docs/index.md")])) by by vm_compute.
  split_and!; [done | done |].
  destruct (filify_then_parse _ _ _ _ _ _ _ H1 H2) as (content & Hc & Hp).
  - apply (bool_decide_unpack _). by vm_compute.
  - apply (bool_decide_unpack _). by vm_compute.
  - exists content. split; [done|]. rewrite Hp. by vm_compute.
Defined.

Lemma defilify_of_composed_document_witness :
  NoDup (dict_keys files_x10) ∧ Forall valid_entry files_x10 ∧
  read_file (py "p.spec") fs_x16 = Returned (_generate_spec_content files_x10) ∧
  defilify (py "p.spec") (py "out") fs_x16
  = _create_directory_structure (sorted files_x10) (py "out") fs_x16.
Proof.
  assert (H1 : NoDup (dict_keys files_x10))
    by (apply (bool_decide_unpack _); by vm_compute).
  assert (H2 : Forall valid_entry files_x10)
    by (apply (bool_decide_unpack _); by vm_compute).
  assert (H3 : read_file (py "p.spec") fs_x16
               = Returned (_generate_spec_content files_x10)) by by vm_compute.
  split_and!; [done | done | done |].
  exact (defilify_of_composed_document _ (py "out") _ _ H1 H2 H3).
Defined.

Lemma filify_document_read_back_witness :
  filify (py "proj") (py "project.spec") tree_x21 fs_c9 = Returned fs_x21_end ∧
  ∃ files out,
    _scan_directory (py "proj") tree_x21 = Returned (files, out) ∧
    read_file (py "project.spec") fs_x21_end
    = Returned (universal_newlines (_generate_spec_content files)).
Proof.
  assert (H1 : filify (py "proj") (py "project.spec") tree_x21 fs_c9
               = Returned fs_x21_end) by by vm_compute.
  split; [done|].
  destruct (filify_document_read_back _ _ _ _ _ H1)
    as (files & out & Hscan & Hread & _).
  by exists files, out.
Defined.
